(** * The authenticating proxy of [src/server/server.mjs]

    A shallow embedding of the Express server that serves the blog sample and
    proxies [/content/] requests to Oracle Content, adding the Authorization
    header.  Strings are [string], instants are milliseconds in [Z], JavaScript
    exceptions and promise rejections are the [Throw] case of [result].

    An [async] function is cut at its [await]: the code before it runs to
    completion when the function is called, the code after it runs when the
    awaited promise settles.  The event loop of the last section interleaves
    several calls the way Node does. *)

From Stdlib Require Import ZArith String Ascii List Bool Lia.
From Stdlib Require Import DecimalString.
Import ListNotations.

Open Scope string_scope.
Open Scope Z_scope.

(** ** JavaScript values the server handles *)

Module Js.

(** What a [throw] or a rejected promise carries. *)
Inductive js_error : Type :=
| Error (message : string)   (* new Error(message) *)
| FetchError                 (* node-fetch rejects: the request did not complete *)
| SyntaxError.               (* response.json() on a body that is not JSON *)

Inductive result (A : Type) : Type :=
| Ok (a : A)
| Throw (e : js_error).

Arguments Ok {A} a.
Arguments Throw {A} e.

Definition is_throw {A : Type} (r : result A) : bool :=
  match r with Throw _ => true | Ok _ => false end.

(** A number is an integer or NaN (the only non-integer the server can
    produce, by adding [undefined] to a number). *)
Inductive number : Type :=
| Num (z : Z)
| NaN.

(** [a + b] for a number [a] and a value [b] that is a number or [undefined]. *)
Definition plus (a : Z) (b : option Z) : number :=
  match b with
  | Some z => Num (a + z)
  | None => NaN
  end.

(** [a > b]: false as soon as one side is NaN. *)
Definition gt (a b : number) : bool :=
  match a, b with
  | Num x, Num y => x >? y
  | _, _ => false
  end.

(** [a - k] for a number [a] and an integer literal [k]. *)
Definition minus (a : number) (k : Z) : number :=
  match a with
  | Num x => Num (x - k)
  | NaN => NaN
  end.

(** A [Date] object: its time value, or an Invalid Date. *)
Inductive Date : Type :=
| ValidDate (ms : Z)
| InvalidDate.

(** The largest time value a Date holds (ECMAScript's TimeClip). *)
Definition MAX_TIME : Z := 8640000000000000.

(** [new Date(t)]. *)
Definition new_Date (t : number) : Date :=
  match t with
  | Num z => if Z.abs z <=? MAX_TIME then ValidDate z else InvalidDate
  | NaN => InvalidDate
  end.

(** [d.getTime()]. *)
Definition getTime (d : Date) : number :=
  match d with
  | ValidDate ms => Num ms
  | InvalidDate => NaN
  end.

(** Truthiness of a value that is [undefined]/[null] ([None]) or a string:
    only a non-empty string is truthy. *)
Definition truthy (v : option string) : bool :=
  match v with
  | Some s => negb (s =? "")%string
  | None => false
  end.

(** [s.charAt(i)]: the one-character string at index [i], or the empty
    string when [i] is out of range. *)
Definition charAt (s : string) (i : Z) : string :=
  if i <? 0 then ""
  else match String.get (Z.to_nat i) s with
       | Some c => String c ""
       | None => ""
       end.

(** [argv.indexOf(key)]: the first index holding [key], or -1. *)
Fixpoint indexOf_from (i : Z) (argv : list string) (key : string) : Z :=
  match argv with
  | [] => -1
  | a :: rest => if (a =? key)%string then i else indexOf_from (i + 1) rest key
  end.

Definition indexOf (argv : list string) (key : string) : Z :=
  indexOf_from 0 argv key.

(** A value interpolated in a template literal: [undefined] prints as the
    word. *)
Definition interpolate (v : option string) : string :=
  match v with
  | Some s => s
  | None => "undefined"
  end.

End Js.

Import Js.

(** ** Command line settings *)

Module CommandLine.

(** The [defaultValue] parameter when it is given: a plain value, or a
    function that is called to produce one. *)
Inductive default_value : Type :=
| Value (v : string)
| Function (f : unit -> string).

(** [commandArgument(key, defaultValue)] over [process.argv];
    [defaultValue = None] is [undefined]. *)
Definition commandArgument (argv : list string) (key : string)
           (defaultValue : option default_value) : result string :=
  let keyIndex := indexOf argv key in
  if (keyIndex <? 1) || (Z.of_nat (List.length argv) =? keyIndex + 1) then
    match defaultValue with
    | Some (Function f) => Ok (f tt)
    | Some (Value v) => Ok v
    | None => Throw (Error ("ERROR: missing " ++ key ++ " <value>"))
    end
  else Ok (nth (Z.to_nat (keyIndex + 1)) argv "").

(** [const root = commandArgument('--root', '/oce-javascript-blog-sample')]. *)
Definition root (argv : list string) : result string :=
  commandArgument argv "--root" (Some (Value "/oce-javascript-blog-sample")).

End CommandLine.

(** ** Authorization support *)

Module Server.

(** The fields of [src/config/content.json] the server reads.  An absent
    field ([undefined]) is [None]. *)
Record config : Type := {
  serverUrl : string;
  auth : option string;
  clientId : option string;
  clientSecret : option string;
  clientScopeURL : option string;
  idcsURL : option string;
  expressServerPort : option Z
}.

(** Time subtracted from an access token's expiry so that the token is
    refreshed before it actually expires. *)
Definition FIVE_SECONDS_MS : Z := 5000.

(** The two module globals: the Authorization header value ([None] is
    [null]) and its expiry ([None] is [null]). *)
Record auth_state : Type := {
  globalAuthValue : option string;
  globalAuthExpiry : option Date
}.

(** [let globalAuthValue = ''; let globalAuthExpiry = null;] *)
Definition initial_auth : auth_state :=
  {| globalAuthValue := Some ""; globalAuthExpiry := None |}.

Definition isAuthNeeded (data : config) : bool :=
  if truthy (auth data) || truthy (clientId data) then true else false.

(** The body the identity service sent, as [response.json()] sees it: not
    JSON at all, or a JSON object whose two fields of interest may be missing. *)
Inductive token_body : Type :=
| MalformedBody
| JsonBody (access_token : option string) (expires_in : option Z).

(** How the one [fetch] of [getBearerAuth] ends. *)
Inductive fetch_outcome : Type :=
| FetchRejects
| FetchResponds (status : Z) (body : token_body).

Record authDetails : Type := {
  authHeaderValue : string;
  expiry : option Z
}.

(** [getBearerAuth()], as a function of what its POST to
    [/oauth2/v1/token] meets.  The status of the response is never looked at,
    nor is the presence of the fields. *)
Definition getBearerAuth (o : fetch_outcome) : result authDetails :=
  match o with
  | FetchRejects => Throw FetchError
  | FetchResponds _ MalformedBody => Throw SyntaxError
  | FetchResponds _ (JsonBody access_token expires_in) =>
      Ok {| authHeaderValue := "Bearer " ++ interpolate access_token;
            expiry := expires_in |}
  end.

(** The test that guards the refresh in [getAuthValue]:
    [!globalAuthValue || !globalAuthExpiry ||
     (globalAuthExpiry.getTime() - FIVE_SECONDS_MS) > currentDate.getTime()]. *)
Definition refresh_test (st : auth_state) (currentDate : Z) : bool :=
  negb (truthy (globalAuthValue st))
  || match globalAuthExpiry st with
     | None => true
     | Some d => gt (minus (getTime d) FIVE_SECONDS_MS) (Num currentDate)
     end.

(** Where a call of [getAuthValue] stands when control returns to the event
    loop: it has returned a value, or it is suspended on
    [await getBearerAuth()], whose POST is under way. *)
Inductive progress : Type :=
| Returned (v : option string)
| AwaitingBearerAuth.

(** [getAuthValue()] from its call to its [await] or, when none is reached,
    to its [return]; [currentDate] is the clock read by [new Date()]. *)
Definition getAuthValue_call (data : config) (currentDate : Z)
           (st : auth_state) : auth_state * progress :=
  if truthy (auth data) then
    let st1 := {| globalAuthValue := auth data;
                  globalAuthExpiry := globalAuthExpiry st |} in
    (st1, Returned (globalAuthValue st1))
  else if truthy (clientId data) then
    if refresh_test st currentDate then
      ({| globalAuthValue := Some "";
          globalAuthExpiry := globalAuthExpiry st |}, AwaitingBearerAuth)
    else (st, Returned (globalAuthValue st))
  else
    let st1 := {| globalAuthValue := None; globalAuthExpiry := None |} in
    (st1, Returned (globalAuthValue st1)).

(** [getAuthValue()] from the moment [getBearerAuth()] settles with [r] to
    its [return]; [now] is the clock read by [Date.now()].  A rejection is
    rethrown by the [await] before any assignment. *)
Definition getAuthValue_resume (now : Z) (r : result authDetails)
           (st : auth_state) : auth_state * result (option string) :=
  match r with
  | Throw e => (st, Throw e)
  | Ok details =>
      let currDateMS := plus now (expiry details) in
      let st1 := {| globalAuthValue := Some (authHeaderValue details);
                    globalAuthExpiry := Some (new_Date currDateMS) |} in
      (st1, Ok (globalAuthValue st1))
  end.

(** What one uninterrupted call of [getAuthValue] meets: the two clock
    readings and the fate of the token request, should it make one. *)
Record call_env : Type := {
  currentDate : Z;
  now : Z;
  tokenFetch : fetch_outcome
}.

(** One call of [getAuthValue] run to its end with no other code in between:
    the new state, the outcome of the returned promise, and whether
    [getBearerAuth] was called. *)
Definition getAuthValue (data : config) (env : call_env) (st : auth_state)
  : auth_state * result (option string) * bool :=
  match getAuthValue_call data (currentDate env) st with
  | (st1, Returned v) => (st1, Ok v, false)
  | (st1, AwaitingBearerAuth) =>
      let '(st2, r) :=
        getAuthValue_resume (now env) (getBearerAuth (tokenFetch env)) st1 in
      (st2, r, true)
  end.

(** *** Several calls in flight

    Node runs one piece of code at a time: a call of [getAuthValue] runs up
    to its [await], and the rest of it runs later, when the token request of
    that call settles.  An [event] is one such piece; callers are numbered. *)
Inductive event : Type :=
| Call (caller : nat) (clock : Z)
| Settle (caller : nat) (clock : Z) (o : fetch_outcome).

Record loop : Type := {
  store : auth_state;
  suspended : list nat;
  bearerAuthCalls : nat;
  answers : list (nat * result (option string))
}.

Definition boot (st : auth_state) : loop :=
  {| store := st; suspended := []; bearerAuthCalls := 0; answers := [] |}.

Fixpoint remove_first (caller : nat) (l : list nat) : list nat :=
  match l with
  | [] => []
  | c :: rest => if Nat.eqb caller c then rest else c :: remove_first caller rest
  end.

(** One turn of the event loop.  [suspended] holds the callers waiting on
    their own [getBearerAuth], [bearerAuthCalls] counts the calls of
    [getBearerAuth], [answers] lists what each caller's promise settled to,
    oldest first.  A [Settle] for a caller that is not waiting is no event of
    the program and changes nothing. *)
Definition turn (data : config) (l : loop) (e : event) : loop :=
  match e with
  | Call caller clock =>
      match getAuthValue_call data clock (store l) with
      | (st1, Returned v) =>
          {| store := st1;
             suspended := suspended l;
             bearerAuthCalls := bearerAuthCalls l;
             answers := answers l ++ [(caller, Ok v)] |}
      | (st1, AwaitingBearerAuth) =>
          {| store := st1;
             suspended := suspended l ++ [caller];
             bearerAuthCalls := S (bearerAuthCalls l);
             answers := answers l |}
      end
  | Settle caller clock o =>
      if existsb (Nat.eqb caller) (suspended l) then
        let '(st1, r) := getAuthValue_resume clock (getBearerAuth o) (store l) in
        {| store := st1;
           suspended := remove_first caller (suspended l);
           bearerAuthCalls := bearerAuthCalls l;
           answers := answers l ++ [(caller, r)] |}
      else l
  end.

Definition run (data : config) (es : list event) (l : loop) : loop :=
  fold_left (turn data) es l.

(** ** The Express server *)

Record request : Type := {
  method : string;
  url : string
}.

Inductive transport : Type := http | https.

Record proxyResponse : Type := {
  statusCode : Z;
  headers : list (string * string)
}.

(** What the handler does that the outside can see.  The [options] of the
    proxied request are [{}] ([None]) or [{ headers: { Authorization: v } }]
    ([Some v], where [v] may be [null]). *)
Inductive effect : Type :=
| TokenRequest
| ProxyRequest (via : transport) (oceUrl : string)
               (options : option (option string))
| PipeRequestBody
| WriteHead (code : Z) (hdrs : list (string * string))
| PipeResponseBody.

(** [executeRequest(req, res, oceUrl, options)]; [upstream] is the response
    of the content server, if one ever comes. *)
Definition executeRequest (oceUrl : string) (options : option (option string))
           (upstream : option proxyResponse) : list effect :=
  ProxyRequest (if prefix "https" oceUrl then https else http) oceUrl options
  :: PipeRequestBody
  :: match upstream with
     | Some proxyRes =>
         [WriteHead (statusCode proxyRes) (headers proxyRes); PipeResponseBody]
     | None => []
     end.

(** The URL of the real server, built by the [/content/] handler from
    [data.serverUrl] and [req.url]. *)
Definition oceUrl_of (data : config) (req_url : string) : string :=
  let content :=
    if (charAt (serverUrl data)
               (Z.of_nat (String.length (serverUrl data)) - 1) =? "/")%string
    then "content" else "/content" in
  let content :=
    if negb (charAt req_url 0 =? "/")%string then content ++ "/" else content in
  serverUrl data ++ content ++ req_url.

Record handler_env : Type := {
  authEnv : call_env;
  upstream : option proxyResponse
}.

(** The handler mounted with [app.use('/content/', ...)].  Express gives it
    [req.url] with the mount path taken off. *)
Definition content_handler (data : config) (req : request)
           (env : handler_env) (st : auth_state) : auth_state * list effect :=
  if negb (method req =? "GET")%string then (st, [])
  else
    let oceUrl := oceUrl_of data (url req) in
    if isAuthNeeded data then
      let '(st1, r, called) := getAuthValue data (authEnv env) st in
      let token := if called then [TokenRequest] else [] in
      match r with
      | Ok authValue =>
          (st1, (token ++ executeRequest oceUrl (Some authValue) (upstream env))%list)
      | Throw _ => (st1, token)
      end
    else (st, executeRequest oceUrl None (upstream env)).

Definition is_proxy_call (e : effect) : bool :=
  match e with ProxyRequest _ _ _ | PipeRequestBody => true | _ => false end.

Definition is_response_write (e : effect) : bool :=
  match e with WriteHead _ _ | PipeResponseBody => true | _ => false end.

End Server.

Import Server.

(** ** The browser side: [src/scripts/server-config-utils.js] *)

Module ServerConfigUtils.

(** The whole of [config/content.json]: the fields the server reads too, and
    the ones only the browser reads. *)
Record content_json : Type := {
  proxied : config;
  apiVersion : option string;
  channelToken : option string;
  preview : option bool
}.

(** The [serverConfig] object handed to the content SDK. *)
Record serverConfig : Type := {
  contentServer : string;
  contentVersion : option string;
  configChannelToken : option string
}.

(** What the content SDK is asked to create. *)
Inductive client : Type :=
| createPreviewClient (c : serverConfig)
| createDeliveryClient (c : serverConfig).

(** A whole number in a template literal. *)
Definition decimal (z : Z) : string := NilZero.string_of_int (Z.to_int z).

(** The callback of [$.getJSON]; [protocol] and [hostname] are those of
    [window.location]. *)
Definition getClient_loaded (protocol hostname : string)
           (jsonContents : content_json) : client :=
  let port :=
    match expressServerPort (proxied jsonContents) with
    | Some p => if p =? 0 then 8080 else p
    | None => 8080
    end in
  let serverURL :=
    if truthy (auth (proxied jsonContents))
       || truthy (clientId (proxied jsonContents))
    then protocol ++ "//" ++ hostname ++ ":" ++ decimal port
    else serverUrl (proxied jsonContents) in
  let serverConfig :=
    {| contentServer := serverURL;
       contentVersion := apiVersion jsonContents;
       configChannelToken := channelToken jsonContents |} in
  match preview jsonContents with
  | Some true => createPreviewClient serverConfig
  | _ => createDeliveryClient serverConfig
  end.

(** The promise [getClient]: [loaded = None] when [$.getJSON] fails. *)
Definition getClient (protocol hostname : string)
           (loaded : option content_json) : result client :=
  match loaded with
  | Some jsonContents => Ok (getClient_loaded protocol hostname jsonContents)
  | None => Throw (Error "Parsing Server Config JSON file Failed")
  end.

Definition config_of (c : client) : serverConfig :=
  match c with
  | createPreviewClient cfg => cfg
  | createDeliveryClient cfg => cfg
  end.

End ServerConfigUtils.

(** ** The browser side: [src/scripts/services.js]

    The delivery client of the content SDK is outside the repository: each
    function takes the outcome of its one call of the client.  A value thrown
    or rejected is [undefined]/[null], a [TypeError] of the runtime, or an
    object of which only [statusMessage] and [error.code] are ever read. *)

Module Services.

Inductive thrown : Type :=
| Nothing
| TypeError
| ErrorObject (statusMessage : option string) (error : option (option string)).

Inductive completion (A : Type) : Type :=
| Normal (a : A)
| Abrupt (t : thrown).

Arguments Normal {A} a.
Arguments Abrupt {A} t.

(** The second argument of a console call. *)
Inductive logged : Type :=
| LoggedString (s : string)
| LoggedValue (v : thrown).

Inductive console_entry : Type :=
| console_log (text : string) (arg : logged)
| console_error (text : string) (arg : logged).

(** [logError(message, error)]: the lines written to the console, or the
    [TypeError] of reading [error.error] on [undefined]. *)
Definition logError (message : string) (error : thrown)
  : completion (list console_entry) :=
  match error with
  | Nothing => Abrupt TypeError
  | TypeError => Normal [console_error message (LoggedValue error)]
  | ErrorObject statusMessage err =>
      if truthy statusMessage then
        Normal [console_log (message ++ " : ")
                            (LoggedString (interpolate statusMessage))]
      else
        match err with
        | Some code =>
            if truthy code && (interpolate code =? "ETIMEDOUT")%string then
              Normal [console_log (message ++ " : ") (LoggedValue error)]
            else if truthy code then
              Normal [console_log (message ++ " : ")
                                  (LoggedString (interpolate code))]
            else Normal [console_error message (LoggedValue error)]
        | None => Normal [console_error message (LoggedValue error)]
        end
  end.

(** [promise.then(onFulfilled)]. *)
Definition and_then {A B : Type} (p : completion A)
           (onFulfilled : A -> completion B) : completion B :=
  match p with
  | Normal a => onFulfilled a
  | Abrupt t => Abrupt t
  end.

(** [promise.catch((error) => this.logError(message, error))]: the console
    lines and the promise that results.  [logError] returns nothing, so a
    failure that was logged resolves to [undefined] ([None]). *)
Definition catch_logError {A : Type} (message : string) (p : completion A)
  : list console_entry * completion (option A) :=
  match p with
  | Normal a => ([], Normal (Some a))
  | Abrupt t =>
      match logError message t with
      | Normal lines => (lines, Normal None)
      | Abrupt t' => ([], Abrupt t')
      end
  end.

(** [fetchTopic(client, topicId)] and [fetchArticle(client, articleId)],
    given the outcome of [client.getItem]. *)
Definition fetchTopic {Item : Type} (getItem : completion Item)
  : list console_entry * completion (option Item) :=
  catch_logError "Fetching topic failed" (and_then getItem Normal).

Definition fetchArticle {Item : Type} (getItem : completion Item)
  : list console_entry * completion (option Item) :=
  catch_logError "Fetching article failed" (and_then getItem Normal).

(** [fetchArticles(client, topicId)], given the outcome of
    [client.queryItems]; the result of a query holds its [items]. *)
Definition fetchArticles {Item : Type} (queryItems : completion (list Item))
  : list console_entry * completion (option (list Item)) :=
  catch_logError "Fetching articles failed" (and_then queryItems Normal).

(** The fields of the home page item that [fetchHomePage] reads;
    [company_logo] is [None] when the item has no logo, [Some id] when it
    has one, whose [id] may be missing. *)
Record home_fields : Type := {
  company_logo : option (option string);
  company_name : option string;
  topics : option (list string);
  about_url : option string;
  contact_url : option string
}.

Record home_page : Type := {
  logoID : option string;
  title : option string;
  home_topics : option (list string);
  aboutUrl : option string;
  contactUrl : option string
}.

(** The [then] callback of [fetchHomePage], on the [items] of the query. *)
Definition home_page_of (items : list home_fields) : completion home_page :=
  match items with
  | [] => Abrupt TypeError
  | first :: _ =>
      match company_logo first with
      | None => Abrupt TypeError
      | Some id =>
          Normal {| logoID := id;
                    title := company_name first;
                    home_topics := topics first;
                    aboutUrl := about_url first;
                    contactUrl := contact_url first |}
      end
  end.

Definition fetchHomePage (queryItems : completion (list home_fields))
  : list console_entry * completion (option home_page) :=
  catch_logError "Fetching home page data failed"
                 (and_then queryItems home_page_of).

(** The renditions of an asset, as [getMediumRenditionURL] reads them. *)
Record link : Type := { rel : string; href : option string }.
Record rendition_format : Type := { format : string; links : list link }.
Record rendition : Type := { name : string; formats : list rendition_format }.

(** [array.filter(test)[0]]. *)
Definition first_match {A : Type} (test : A -> bool) (l : list A) : option A :=
  hd_error (filter test l).

(** The [then] callback of [getMediumRenditionURL], on
    [asset.fields.renditions]. *)
Definition medium_url_of (renditions : list rendition)
  : completion (option string) :=
  match first_match (fun item => (name item =? "Medium")%string) renditions with
  | None => Abrupt TypeError
  | Some object =>
      match first_match (fun item => (format item =? "jpg")%string)
                        (formats object) with
      | None => Abrupt TypeError
      | Some fmt =>
          match first_match (fun item => (rel item =? "self")%string)
                            (links fmt) with
          | None => Abrupt TypeError
          | Some self => Normal (href self)
          end
      end
  end.

Definition getMediumRenditionURL (getItem : completion (list rendition))
  : list console_entry * completion (option (option string)) :=
  catch_logError "Fetching medium rendition URL failed"
                 (and_then getItem medium_url_of).

End Services.

(** ** Sample configurations and vocabulary of the statements *)

(** A configuration for content published to a secure channel: OAuth client
    credentials, no static [auth]. *)
Definition oauth_config : config :=
  {| serverUrl := "https://example.com/oce";
     auth := None;
     clientId := Some "client";
     clientSecret := Some "secret";
     clientScopeURL := Some "https://example.com/urn:opc:cec:all";
     idcsURL := Some "https://idcs.example.com";
     expressServerPort := None |}.

(** The identity service answers 200 with [access_token] and [expires_in]. *)
Definition token_granted (access_token : string) (expires_in : Z)
  : fetch_outcome :=
  FetchResponds 200 (JsonBody (Some access_token) (Some expires_in)).

(** [s] less one trailing ["/"], if it has one. *)
Definition without_trailing_slash (s : string) : string :=
  if (charAt s (Z.of_nat (String.length s) - 1) =? "/")%string
  then substring 0 (String.length s - 1) s
  else s.

(** The URLs of the proxied requests among the effects of a handler. *)
Fixpoint proxied_urls (es : list effect) : list string :=
  match es with
  | [] => []
  | ProxyRequest _ u _ :: rest => u :: proxied_urls rest
  | _ :: rest => proxied_urls rest
  end.

(** The callers that called [getAuthValue] in a list of events, in order. *)
Fixpoint callers_of (es : list event) : list nat :=
  match es with
  | [] => []
  | Call c _ :: rest => c :: callers_of rest
  | Settle _ _ _ :: rest => callers_of rest
  end.

(** A response whose status is outside 200..299. *)
Definition non_2xx (status : Z) : bool :=
  (status <? 200) || (299 <? status).

(** The token requests that, by the specification, must end in a failure of
    [getBearerAuth]: the request itself fails, the status is not 2xx, or the
    JSON body has no [access_token]. *)
Definition must_fail (o : fetch_outcome) : bool :=
  match o with
  | FetchRejects => true
  | FetchResponds status body =>
      non_2xx status
      || match body with
         | JsonBody None _ => true
         | _ => false
         end
  end.

(** The statement that [getBearerAuth] fails on a token request that must
    fail. *)
Definition fails_when_it_must (o : fetch_outcome) : Prop :=
  must_fail o = true -> is_throw (getBearerAuth o) = true.

(** The statement that a failing provider leaves the cached credential as it
    was and that the failure reaches the caller, for one call of
    [getAuthValue] that reaches the provider. *)
Definition failure_leaves_state (data : config) (env : call_env)
           (st : auth_state) : Prop :=
  is_throw (getBearerAuth (tokenFetch env)) = true ->
  snd (getAuthValue data env st) = true ->
  fst (fst (getAuthValue data env st)) = st
  /\ is_throw (snd (fst (getAuthValue data env st))) = true.

(** Callers that call [getAuthValue] one after the other, each at its clock
    reading, before any token request has settled. *)
Definition calls (cs : list (nat * Z)) : list event :=
  map (fun c => Call (fst c) (snd c)) cs.

(** A token request that ends well, for the caller [grantee]. *)
Record grant : Type := {
  grantee : nat;
  settled_at : Z;
  token : option string;
  lifetime : option Z
}.

Definition grants (gs : list grant) : list event :=
  map (fun g => Settle (grantee g) (settled_at g)
                       (FetchResponds 200 (JsonBody (token g) (lifetime g))))
      gs.

(** The header value made from the caller's own token. *)
Definition own_answer (g : grant) : nat * result (option string) :=
  (grantee g, Ok (Some ("Bearer " ++ interpolate (token g)))).

(** Single flight over a run of events: [getBearerAuth] was called once and
    all the callers got one and the same outcome. *)
Definition single_flight (data : config) (st : auth_state)
           (es : list event) : Prop :=
  bearerAuthCalls (run data es (boot st)) = 1%nat
  /\ exists v, Forall (fun a => snd a = v) (answers (run data es (boot st))).

(** ** Vocabulary of the further properties *)

(** [const port = data.expressServerPort || 8080;] of [server.mjs]: 0 is
    falsy, like an absent field. *)
Definition port (data : config) : Z :=
  match expressServerPort data with
  | Some p => if p =? 0 then 8080 else p
  | None => 8080
  end.

(** [data] with another [serverUrl]. *)
Definition with_serverUrl (data : config) (u : string) : config :=
  {| serverUrl := u;
     auth := auth data;
     clientId := clientId data;
     clientSecret := clientSecret data;
     clientScopeURL := clientScopeURL data;
     idcsURL := idcsURL data;
     expressServerPort := expressServerPort data |}.

(** [req.url] with a slash put in front when it does not begin with one. *)
Definition with_leading_slash (req_url : string) : string :=
  if (charAt req_url 0 =? "/")%string then req_url else "/" ++ req_url.

(** The transports of the proxied requests among the effects of a handler. *)
Fixpoint proxied_transports (es : list effect) : list transport :=
  match es with
  | [] => []
  | ProxyRequest via _ _ :: rest => via :: proxied_transports rest
  | _ :: rest => proxied_transports rest
  end.

(** An effect that is no proxied request, or a proxied request whose options
    carry a non-empty Authorization header. *)
Definition carries_authorization (e : effect) : bool :=
  match e with
  | ProxyRequest _ _ (Some (Some h)) => negb (h =? "")%string
  | ProxyRequest _ _ _ => false
  | _ => true
  end.

(** The calls of [es] all come at clocks at which [st] is not refreshed. *)
Definition no_refresh_at (st : auth_state) (es : list event) : Prop :=
  Forall (fun e => match e with
                   | Call _ clock => refresh_test st clock = false
                   | Settle _ _ _ => True
                   end) es.


(** A cached credential with a non-empty value whose expiry is an Invalid
    Date, or lies no more than five seconds after [lo]. *)
Definition past_refresh (st : auth_state) (lo : Z) : bool :=
  truthy (globalAuthValue st)
  && match globalAuthExpiry st with
     | None => false
     | Some InvalidDate => true
     | Some (ValidDate ms) => ms - FIVE_SECONDS_MS <=? lo
     end.

(** The shape the cached credential keeps under client credentials: the
    empty string, or a Bearer header together with an expiry. *)
Definition bearer_or_empty (st : auth_state) : Prop :=
  globalAuthValue st = Some ""
  \/ exists h d, globalAuthValue st = Some h
                 /\ prefix "Bearer " h = true
                 /\ globalAuthExpiry st = Some d.

(** An outcome of [getAuthValue] that is a rejection or a Bearer header. *)
Definition bearer_answer (a : nat * result (option string)) : Prop :=
  match snd a with
  | Throw _ => True
  | Ok (Some h) => prefix "Bearer " h = true
  | Ok None => False
  end.

(** [s] ends with a slash: the test the handler makes on [data.serverUrl]. *)
Definition ends_with_slash (s : string) : bool :=
  (charAt s (Z.of_nat (String.length s) - 1) =? "/")%string.

(** The statement that the upstream URL has exactly one slash before
    [content]: it is a base that does not end with a slash, then [/content],
    then [req.url]. *)
Definition one_separator_before_content (data : config) (req_url : string)
  : Prop :=
  exists b, ends_with_slash b = false
            /\ oceUrl_of data req_url = b ++ "/content" ++ req_url.

(** ** Lemmas on strings and on [indexOf] *)

Lemma append_assoc (a b c : string) : (a ++ b) ++ c = a ++ (b ++ c).
Proof.
  induction a as [|x a IH]; simpl; [reflexivity | now rewrite IH].
Qed.

Lemma charAt_last_cons (x : ascii) (s : string) :
  s <> "" ->
  charAt (String x s) (Z.of_nat (String.length (String x s)) - 1)
  = charAt s (Z.of_nat (String.length s) - 1).
Proof.
  intros Hne. destruct s as [|y s]; [congruence|].
  unfold charAt.
  replace (Z.of_nat (String.length (String x (String y s))) - 1)
    with (Z.of_nat (S (String.length s))) by (simpl String.length; lia).
  replace (Z.of_nat (String.length (String y s)) - 1)
    with (Z.of_nat (String.length s)) by (simpl String.length; lia).
  destruct (Z.ltb_spec (Z.of_nat (S (String.length s))) 0); [lia|].
  destruct (Z.ltb_spec (Z.of_nat (String.length s)) 0); [lia|].
  rewrite !Nat2Z.id. reflexivity.
Qed.

Lemma trailing_slash_split (s : string) :
  (charAt s (Z.of_nat (String.length s) - 1) =? "/")%string = true ->
  s = substring 0 (String.length s - 1) s ++ "/".
Proof.
  induction s as [|x s IH]; intros H.
  - discriminate H.
  - destruct s as [|y s].
    + apply String.eqb_eq in H. cbn in H. injection H as ->. reflexivity.
    + rewrite charAt_last_cons in H by discriminate.
      specialize (IH H).
      replace (String.length (String x (String y s)) - 1)%nat
        with (S (String.length (String y s) - 1))%nat
        by (simpl String.length; lia).
      cbn [substring append]. f_equal. exact IH.
Qed.

Lemma indexOf_from_absent (i : Z) (argv : list string) (key : string) :
  ~ In key argv -> indexOf_from i argv key = -1.
Proof.
  revert i. induction argv as [|a rest IH]; intros i Hnot; simpl.
  - reflexivity.
  - destruct (String.eqb_spec a key) as [->|_].
    + exfalso. apply Hnot. now left.
    + apply IH. intros Hin. apply Hnot. now right.
Qed.

(** ** Command line *)

(** The server itself passes a default for [--root], so a command line
    without it starts the server on the default root. *)
Lemma root_defaults (argv : list string) :
  ~ In "--root" argv ->
  CommandLine.root argv = Ok "/oce-javascript-blog-sample".
Proof.
  intros Hnot. unfold CommandLine.root, CommandLine.commandArgument, indexOf.
  rewrite (indexOf_from_absent 0 argv "--root" Hnot). reflexivity.
Qed.

(** C9. When [key] does not occur on the command line and no default value is
    passed, [commandArgument] throws [ERROR: missing <key> <value>]; no
    fallback value is returned. *)
Theorem commandArgument_missing_throws (argv : list string) (key : string) :
  ~ In key argv ->
  CommandLine.commandArgument argv key None
  = Throw (Error ("ERROR: missing " ++ key ++ " <value>")).
Proof.
  intros Hnot. unfold CommandLine.commandArgument, indexOf.
  rewrite (indexOf_from_absent 0 argv key Hnot). reflexivity.
Qed.

Lemma commandArgument_missing_throws_witness :
  CommandLine.commandArgument ["node"; "src/server/server.mjs"] "--root" None
  = Throw (Error "ERROR: missing --root <value>").
Proof.
  apply (commandArgument_missing_throws
           ["node"; "src/server/server.mjs"] "--root").
  simpl. intros [H|[H|[]]]; discriminate H.
Defined.

(** ** The [/content/] handler *)

Lemma oceUrl_of_rooted (data : config) (rest : string) :
  oceUrl_of data ("/" ++ rest)
  = without_trailing_slash (serverUrl data) ++ "/content" ++ "/" ++ rest.
Proof.
  unfold oceUrl_of, without_trailing_slash.
  destruct (charAt (serverUrl data) _ =? "/")%string eqn:Hlast; cbn.
  - rewrite (trailing_slash_split _ Hlast) at 1.
    rewrite append_assoc. reflexivity.
  - reflexivity.
Qed.

Lemma proxied_urls_executeRequest (u : string) (o : option (option string))
      (up : option proxyResponse) :
  proxied_urls (executeRequest u o up) = [u].
Proof. destruct up; reflexivity. Qed.

Lemma content_handler_urls (data : config) (req : request)
      (env : handler_env) (st : auth_state) :
  Forall (fun u => u = oceUrl_of data (url req))
         (proxied_urls (snd (content_handler data req env st))).
Proof.
  unfold content_handler.
  destruct (negb (method req =? "GET")%string); [constructor|].
  destruct (isAuthNeeded data).
  - destruct (getAuthValue data (authEnv env) st) as [[st1 r] called].
    destruct r as [v|e], called; cbn [snd app proxied_urls];
      rewrite ?proxied_urls_executeRequest; repeat constructor.
  - cbn [snd]. rewrite proxied_urls_executeRequest. repeat constructor.
Qed.

(** C7. A request under [/content/] whose method is not GET makes the
    handler return at once: no token request, no upstream request, nothing
    written to the response, and the cached credential is left as it was. *)
Theorem non_get_is_dropped (data : config) (req : request)
        (env : handler_env) (st : auth_state) :
  method req <> "GET" ->
  content_handler data req env st = (st, []).
Proof.
  intros Hm. unfold content_handler.
  apply String.eqb_neq in Hm. rewrite Hm. reflexivity.
Qed.

Lemma non_get_is_dropped_witness :
  content_handler oauth_config
                  {| method := "POST"; url := "/published/api/v1.1/items" |}
                  {| authEnv := {| currentDate := 0; now := 0;
                                   tokenFetch := token_granted "A" 3600 |};
                     upstream := Some {| statusCode := 200; headers := [] |} |}
                  initial_auth
  = (initial_auth, []).
Proof.
  apply non_get_is_dropped. cbn [method]. discriminate.
Defined.

(** C10. When authorization is needed and the promise of [getAuthValue]
    rejects, the handler makes no upstream request and writes neither status,
    headers nor body to the response: [then] was given no rejection handler. *)
Theorem rejected_auth_leaves_request_unanswered
        (data : config) (req : request) (env : handler_env) (st : auth_state) :
  isAuthNeeded data = true ->
  is_throw (snd (fst (getAuthValue data (authEnv env) st))) = true ->
  existsb is_proxy_call (snd (content_handler data req env st)) = false
  /\ existsb is_response_write (snd (content_handler data req env st)) = false
  /\ proxied_urls (snd (content_handler data req env st)) = [].
Proof.
  intros Hneeded Hrej. unfold content_handler.
  destruct (negb (method req =? "GET")%string); [now cbn|].
  rewrite Hneeded.
  destruct (getAuthValue data (authEnv env) st) as [[st1 r] called].
  destruct r as [v|e]; [discriminate Hrej|].
  destruct called; now cbn.
Qed.

Lemma rejected_auth_leaves_request_unanswered_witness :
  let req := {| method := "GET"; url := "/published/api/v1.1/items/123" |} in
  let env := {| authEnv := {| currentDate := 0; now := 40;
                              tokenFetch := FetchRejects |};
                upstream := Some {| statusCode := 200; headers := [] |} |} in
  existsb is_proxy_call
          (snd (content_handler oauth_config req env initial_auth)) = false
  /\ existsb is_response_write
             (snd (content_handler oauth_config req env initial_auth)) = false
  /\ proxied_urls (snd (content_handler oauth_config req env initial_auth)) = [].
Proof.
  intros req env.
  apply (rejected_auth_leaves_request_unanswered
           oauth_config req env initial_auth); reflexivity.
Defined.

(** ** The cached credential *)

Lemma getAuthValue_call_static (data : config) (clock : Z) (st : auth_state) :
  truthy (auth data) = true ->
  getAuthValue_call data clock st
  = ({| globalAuthValue := auth data;
        globalAuthExpiry := globalAuthExpiry st |}, Returned (auth data)).
Proof.
  intros Hs. unfold getAuthValue_call. rewrite Hs. reflexivity.
Qed.

Lemma run_static (data : config) (es : list event) (l : loop) :
  truthy (auth data) = true ->
  suspended l = [] ->
  let l' := run data es l in
  suspended l' = []
  /\ bearerAuthCalls l' = bearerAuthCalls l
  /\ answers l'
     = (answers l ++ map (fun c => (c, Ok (auth data))) (callers_of es))%list.
Proof.
  intros Hs. revert l.
  induction es as [|e es IH]; intros l Hsusp; cbn zeta.
  - cbn. rewrite app_nil_r. auto.
  - unfold run. cbn [fold_left]. fold (run data es (turn data l e)).
    destruct e as [c clock|c clock o]; cbn [turn callers_of map].
    + rewrite (getAuthValue_call_static data clock (store l) Hs).
      match goal with |- context [run data es ?l1] =>
        destruct (IH l1 Hsusp) as (H1 & H2 & H3) end.
      rewrite H1, H2, H3. cbn [bearerAuthCalls answers].
      rewrite <- app_assoc. auto.
    + rewrite Hsusp. cbn [existsb]. exact (IH l Hsusp).
Qed.

(** C8. With a static [data.auth] configured, every call of [getAuthValue]
    returns that value without calling [getBearerAuth]: in any sequence of
    events, from any cached state, the count of [getBearerAuth] calls stays 0,
    no caller is left waiting and each caller got [data.auth]. *)
Theorem static_auth_bypasses_provider
        (data : config) (es : list event) (st : auth_state) :
  truthy (auth data) = true ->
  (forall env, snd (getAuthValue data env st) = false
               /\ snd (fst (getAuthValue data env st)) = Ok (auth data))
  /\ bearerAuthCalls (run data es (boot st)) = 0%nat
  /\ suspended (run data es (boot st)) = []
  /\ answers (run data es (boot st))
     = map (fun c => (c, Ok (auth data))) (callers_of es).
Proof.
  intros Hs. split.
  - intros env. unfold getAuthValue.
    rewrite (getAuthValue_call_static data (currentDate env) st Hs). auto.
  - destruct (run_static data es (boot st) Hs eq_refl) as (H1 & H2 & H3).
    rewrite H1, H2, H3. auto.
Qed.

Lemma static_auth_bypasses_provider_witness :
  let data := {| serverUrl := "https://example.com/oce";
                 auth := Some "Basic dXNlcjpwYXNz";
                 clientId := Some "client"; clientSecret := Some "secret";
                 clientScopeURL := None; idcsURL := None;
                 expressServerPort := Some 8080 |} in
  let es := [Call 0 0; Call 1 3596000; Settle 1 3596100 FetchRejects;
             Call 2 99999999] in
  (forall env, snd (getAuthValue data env initial_auth) = false
               /\ snd (fst (getAuthValue data env initial_auth))
                  = Ok (auth data))
  /\ bearerAuthCalls (run data es (boot initial_auth)) = 0%nat
  /\ suspended (run data es (boot initial_auth)) = []
  /\ answers (run data es (boot initial_auth))
     = map (fun c => (c, Ok (auth data))) (callers_of es).
Proof.
  intros data es.
  apply (static_auth_bypasses_provider data es initial_auth). reflexivity.
Defined.

Lemma refresh_test_cached (header : string) (ms clock : Z) :
  header <> "" ->
  refresh_test {| globalAuthValue := Some header;
                  globalAuthExpiry := Some (ValidDate ms) |} clock
  = (ms - FIVE_SECONDS_MS >? clock).
Proof.
  intros Hne. unfold refresh_test. cbn.
  apply String.eqb_neq in Hne. rewrite Hne. reflexivity.
Qed.

(** C1. The code at the scenario of the specification and inside the
    validity window.  Token A is fetched at time 0 with [expires_in = 3600]:
    the call at 3590 s returns A, and so does the call at 3596 s, with no
    second call of [getBearerAuth]; indeed no later call ever refreshes.  With
    [expires_in = 10000] a call 1 ms after the fetch, well inside the window,
    calls [getBearerAuth] again and returns token B. *)
Theorem validity_window_reversed :
  let fetched_A :=
    run oauth_config [Call 0 0; Settle 0 0 (token_granted "A" 3600)]
        (boot initial_auth) in
  let late :=
    run oauth_config [Call 1 3590000; Call 2 3596000;
                      Settle 2 3596100 (token_granted "B" 3600)] fetched_A in
  let fetched_A' :=
    run oauth_config [Call 0 0; Settle 0 0 (token_granted "A" 10000)]
        (boot initial_auth) in
  let early :=
    run oauth_config [Call 1 1; Settle 1 2 (token_granted "B" 10000)]
        fetched_A' in
  answers fetched_A = [(0%nat, Ok (Some "Bearer A"))]
  /\ bearerAuthCalls late = 1%nat
  /\ answers late = [(0%nat, Ok (Some "Bearer A"));
                     (1%nat, Ok (Some "Bearer A"));
                     (2%nat, Ok (Some "Bearer A"))]
  /\ (forall n : N,
         getAuthValue_call oauth_config (Z.of_N n) (store fetched_A)
         = (store fetched_A, Returned (Some "Bearer A")))
  /\ bearerAuthCalls early = 2%nat
  /\ answers early = [(0%nat, Ok (Some "Bearer A"));
                      (1%nat, Ok (Some "Bearer B"))].
Proof.
  cbv zeta. repeat split; try reflexivity.
  intros n. cbn [run fold_left].
  unfold getAuthValue_call. cbn [oauth_config auth clientId truthy].
  cbn [String.eqb negb].
  replace (refresh_test _ (Z.of_N n)) with false; [reflexivity|].
  symmetry. cbn. rewrite Z.gtb_ltb. apply Z.ltb_ge. lia.
Qed.

(** C3. After a refresh that completes at clock [T] (milliseconds) with
    [expires_in = E], the stored expiry is the instant [T + E]: the count of
    seconds is added to a count of milliseconds as it is, so the expiry is
    [T] plus [E] seconds only when [E] is 0. *)
Theorem expiry_adds_seconds_to_milliseconds
        (st : auth_state) (T E : Z) (header : string) :
  Z.abs (T + E) <= MAX_TIME ->
  let st' := fst (getAuthValue_resume
                    T (Ok {| authHeaderValue := header; expiry := Some E |})
                    st) in
  globalAuthExpiry st' = Some (ValidDate (T + E))
  /\ (E <> 0 -> globalAuthExpiry st' <> Some (ValidDate (T + 1000 * E))).
Proof.
  intros Hrange. apply Z.leb_le in Hrange.
  unfold getAuthValue_resume, plus, new_Date.
  cbn [fst expiry globalAuthExpiry]. rewrite Hrange.
  split; [reflexivity|].
  intros HE Heq.
  assert (Hms : T + E = T + 1000 * E) by congruence. lia.
Qed.

Lemma expiry_adds_seconds_to_milliseconds_witness :
  let st' := fst (getAuthValue_resume
                    1700000000000
                    (Ok {| authHeaderValue := "Bearer A";
                           expiry := Some 3600 |})
                    initial_auth) in
  globalAuthExpiry st' = Some (ValidDate (1700000000000 + 3600))
  /\ (3600 <> 0 ->
      globalAuthExpiry st' <> Some (ValidDate (1700000000000 + 1000 * 3600))).
Proof.
  apply (expiry_adds_seconds_to_milliseconds
           initial_auth 1700000000000 3600 "Bearer A").
  unfold MAX_TIME. simpl. lia.
Defined.

(** ** Failures of the provider *)

(** C4, as stated, fails: token A is cached with [expires_in = 100000], the
    next call goes to the provider, the provider fails, and the cached value
    is no longer the one before the call. *)
Lemma failure_leaves_state_counterexample :
  ~ failure_leaves_state
      oauth_config
      {| currentDate := 1; now := 2; tokenFetch := FetchRejects |}
      (store (run oauth_config
                  [Call 0 0; Settle 0 0 (token_granted "A" 100000)]
                  (boot initial_auth))).
Proof.
  intros H. destruct (H eq_refl eq_refl) as [Hst _].
  cbn in Hst. discriminate Hst.
Qed.

(** C4, amended.  A call of [getAuthValue] that goes to the provider sets
    [globalAuthValue] to the empty string at once, before the provider is
    called, and leaves [globalAuthExpiry] alone.  When the provider then
    fails, its error is the outcome of the call and the failure changes
    nothing in the cached state as it stands at that moment, whatever other
    calls did to it in between.  So with nothing in between, the call ends
    with the empty value and the expiry as before: the state before the call
    exactly when its value was already the empty string. *)
Theorem provider_failure_propagates
        (data : config) (l l' : loop) (c : nat) (clock clock' : Z)
        (o : fetch_outcome) (e : js_error) :
  getBearerAuth o = Throw e ->
  snd (getAuthValue_call data clock (store l)) = AwaitingBearerAuth ->
  In c (suspended l') ->
  let cleared := {| globalAuthValue := Some "";
                    globalAuthExpiry := globalAuthExpiry (store l) |} in
  store (turn data l (Call c clock)) = cleared
  /\ suspended (turn data l (Call c clock)) = (suspended l ++ [c])%list
  /\ store (turn data l' (Settle c clock' o)) = store l'
  /\ answers (turn data l' (Settle c clock' o))
     = (answers l' ++ [(c, Throw e)])%list
  /\ getAuthValue data {| currentDate := clock; now := clock';
                          tokenFetch := o |} (store l)
     = (cleared, Throw e, true)
  /\ (cleared = store l <-> globalAuthValue (store l) = Some "").
Proof.
  intros Hfail Hawait Hin cleared.
  assert (Hcall : getAuthValue_call data clock (store l)
                  = (cleared, AwaitingBearerAuth)).
  { revert Hawait. unfold getAuthValue_call.
    destruct (truthy (auth data)); [discriminate|].
    destruct (truthy (clientId data)); [|discriminate].
    destruct (refresh_test (store l) clock); [|discriminate].
    reflexivity. }
  assert (Hwaits : existsb (Nat.eqb c) (suspended l') = true).
  { apply existsb_exists. exists c. split; [exact Hin|].
    apply Nat.eqb_refl. }
  repeat split.
  - cbn [turn]. rewrite Hcall. reflexivity.
  - cbn [turn]. rewrite Hcall. reflexivity.
  - cbn [turn]. rewrite Hwaits, Hfail. reflexivity.
  - cbn [turn]. rewrite Hwaits, Hfail. reflexivity.
  - unfold getAuthValue. cbn [currentDate now tokenFetch].
    rewrite Hcall, Hfail. reflexivity.
  - intros <-. reflexivity.
  - intros Hv. subst cleared. destruct (store l) as [v x].
    cbn in *. now rewrite Hv.
Qed.

Lemma provider_failure_propagates_witness :
  let l := boot {| globalAuthValue := Some "Bearer A";
                   globalAuthExpiry := Some (ValidDate 100000) |} in
  let l' := run oauth_config
                [Call 1 1; Call 2 2; Settle 2 40 (token_granted "B" 3600)]
                l in
  let cleared := {| globalAuthValue := Some "";
                    globalAuthExpiry := globalAuthExpiry (store l) |} in
  store (turn oauth_config l (Call 1 1)) = cleared
  /\ suspended (turn oauth_config l (Call 1 1)) = (suspended l ++ [1%nat])%list
  /\ store (turn oauth_config l' (Settle 1 41 FetchRejects)) = store l'
  /\ answers (turn oauth_config l' (Settle 1 41 FetchRejects))
     = (answers l' ++ [(1%nat, Throw FetchError)])%list
  /\ getAuthValue oauth_config {| currentDate := 1; now := 41;
                                  tokenFetch := FetchRejects |} (store l)
     = (cleared, Throw FetchError, true)
  /\ (cleared = store l <-> globalAuthValue (store l) = Some "").
Proof.
  intros l l'.
  apply (provider_failure_propagates
           oauth_config l l' 1%nat 1 41 FetchRejects FetchError).
  - reflexivity.
  - reflexivity.
  - cbn. now left.
Defined.

(** C5, as stated, fails: on a 401 whose body is a JSON object without
    [access_token], [getBearerAuth] returns normally. *)
Lemma fails_when_it_must_counterexample :
  ~ fails_when_it_must (FetchResponds 401 (JsonBody None None)).
Proof.
  intros H. specialize (H eq_refl). discriminate H.
Qed.

(** C5, amended.  [getBearerAuth] fails when its request fails and when the
    body of the response is not JSON.  For every response with a JSON object
    as body, whatever the status, it returns normally: the header value is
    ["Bearer "] followed by [access_token], or by the word [undefined] when
    the field is missing, and the expiry is [expires_in] as it came. *)
Theorem getBearerAuth_outcomes :
  getBearerAuth FetchRejects = Throw FetchError
  /\ (forall status,
         getBearerAuth (FetchResponds status MalformedBody) = Throw SyntaxError)
  /\ (forall status token expires_in,
         getBearerAuth (FetchResponds status (JsonBody (Some token) expires_in))
         = Ok {| authHeaderValue := "Bearer " ++ token;
                 expiry := expires_in |})
  /\ (forall status expires_in,
         getBearerAuth (FetchResponds status (JsonBody None expires_in))
         = Ok {| authHeaderValue := "Bearer undefined";
                 expiry := expires_in |}).
Proof.
  repeat split.
Qed.

(** ** Calls in flight together *)

Lemma existsb_eqb_in (c : nat) (l : list nat) :
  In c l -> existsb (Nat.eqb c) l = true.
Proof.
  intros Hin. apply existsb_exists. exists c. split; [exact Hin|].
  apply Nat.eqb_refl.
Qed.

Lemma in_remove_first (c c' : nat) (l : list nat) :
  c' <> c -> In c' l -> In c' (remove_first c l).
Proof.
  intros Hne. induction l as [|x l IH]; intros Hin; [exact Hin|].
  cbn. destruct (Nat.eqb_spec c x) as [->|Hcx].
  - destruct Hin as [->|Hin]; [congruence | exact Hin].
  - destruct Hin as [->|Hin]; [now left | right; auto].
Qed.

Lemma run_app (data : config) (es1 es2 : list event) (l : loop) :
  run data (es1 ++ es2) l = run data es2 (run data es1 l).
Proof. unfold run. apply fold_left_app. Qed.

(** With client credentials and an empty cached value, every call goes to
    the provider and waits. *)
Lemma run_calls_empty_value (data : config) (cs : list (nat * Z)) (l : loop) :
  truthy (auth data) = false ->
  truthy (clientId data) = true ->
  globalAuthValue (store l) = Some "" ->
  run data (calls cs) l
  = {| store := store l;
       suspended := suspended l ++ map fst cs;
       bearerAuthCalls := bearerAuthCalls l + List.length cs;
       answers := answers l |}.
Proof.
  intros Hs Hc. revert l.
  induction cs as [|[c t] cs IH]; intros l Hv.
  - cbn. rewrite app_nil_r, Nat.add_0_r. now destruct l.
  - cbn [calls map]. unfold run. cbn [fold_left fst snd].
    fold (calls cs). fold (run data (calls cs)
                               (turn data l (Call c t))).
    assert (Hturn : turn data l (Call c t)
                    = {| store := store l;
                         suspended := suspended l ++ [c];
                         bearerAuthCalls := S (bearerAuthCalls l);
                         answers := answers l |}).
    { cbn [turn]. unfold getAuthValue_call, refresh_test.
      rewrite Hs, Hc, Hv. cbn.
      destruct (store l) as [v x]. cbn in Hv. now rewrite Hv. }
    rewrite Hturn, IH by exact Hv.
    cbn [store suspended bearerAuthCalls answers List.length].
    rewrite <- app_assoc, Nat.add_succ_r. reflexivity.
Qed.

(** Each token request that settles for a waiting caller gives that caller
    the header made from its own token, whatever the store holds. *)
Lemma run_grants (data : config) (gs : list grant) (l : loop) :
  NoDup (map grantee gs) ->
  incl (map grantee gs) (suspended l) ->
  bearerAuthCalls (run data (grants gs) l) = bearerAuthCalls l
  /\ answers (run data (grants gs) l)
     = (answers l ++ map own_answer gs)%list.
Proof.
  revert l. induction gs as [|g gs IH]; intros l Hnd Hincl.
  - cbn. now rewrite app_nil_r.
  - cbn [grants map]. unfold run. cbn [fold_left].
    fold (grants gs).
    match goal with |- context [fold_left _ (grants gs) ?l1] =>
      fold (run data (grants gs) l1); set (l' := l1) end.
    cbn [map] in Hnd, Hincl. inversion Hnd as [|? ? Hnotin Hnd']; subst.
    assert (Hin : In (grantee g) (suspended l))
      by (apply Hincl; now left).
    assert (Hl' : l' = {| store := fst (getAuthValue_resume
                                         (settled_at g)
                                         (getBearerAuth
                                            (FetchResponds
                                               200 (JsonBody (token g)
                                                             (lifetime g))))
                                         (store l));
                          suspended := remove_first (grantee g) (suspended l);
                          bearerAuthCalls := bearerAuthCalls l;
                          answers := answers l ++ [own_answer g] |}).
    { subst l'. cbn [turn]. rewrite (existsb_eqb_in _ _ Hin). reflexivity. }
    destruct (IH l' Hnd') as [Hcalls Hans].
    { intros c Hc. rewrite Hl'. cbn [suspended].
      apply in_remove_first.
      - intros ->. exact (Hnotin Hc).
      - apply Hincl. now right. }
    rewrite Hcalls, Hans, Hl'. cbn [bearerAuthCalls answers map].
    rewrite <- app_assoc. auto.
Qed.

(** C2, as stated, fails: two calls made while the cache is empty call
    [getBearerAuth] twice, and the callers receive different values. *)
Lemma single_flight_counterexample :
  ~ single_flight oauth_config initial_auth
      [Call 0 0; Call 1 0;
       Settle 0 5 (token_granted "A" 3600);
       Settle 1 6 (token_granted "B" 3600)].
Proof.
  intros [Hcalls _]. cbv in Hcalls. discriminate Hcalls.
Qed.

(** C2, amended.  With client credentials configured and a cached credential
    that the first caller finds due for refresh, callers that call
    [getAuthValue] before any token request settles each call
    [getBearerAuth]: as many calls as callers.  When the requests settle with
    a token, in any order, each caller receives the header made from the token
    of its own request. *)
Theorem concurrent_calls_each_refresh
        (data : config) (st : auth_state) (c0 : nat) (t0 : Z)
        (cs : list (nat * Z)) (gs : list grant) :
  truthy (auth data) = false ->
  truthy (clientId data) = true ->
  refresh_test st t0 = true ->
  NoDup (map grantee gs) ->
  incl (map grantee gs) (c0 :: map fst cs) ->
  bearerAuthCalls (run data (calls ((c0, t0) :: cs)) (boot st))
  = S (List.length cs)
  /\ suspended (run data (calls ((c0, t0) :: cs)) (boot st))
     = c0 :: map fst cs
  /\ bearerAuthCalls (run data (calls ((c0, t0) :: cs) ++ grants gs) (boot st))
     = S (List.length cs)
  /\ answers (run data (calls ((c0, t0) :: cs) ++ grants gs) (boot st))
     = map own_answer gs.
Proof.
  intros Hs Hc Hdue Hnd Hincl.
  assert (Hfirst : run data (calls ((c0, t0) :: cs)) (boot st)
                   = {| store := {| globalAuthValue := Some "";
                                    globalAuthExpiry := globalAuthExpiry st |};
                        suspended := c0 :: map fst cs;
                        bearerAuthCalls := S (List.length cs);
                        answers := [] |}).
  { cbn [calls map]. unfold run. cbn [fold_left fst snd].
    fold (calls cs).
    match goal with |- fold_left _ _ ?l1 = _ =>
      fold (run data (calls cs) l1) end.
    cbn [turn boot store]. unfold getAuthValue_call.
    rewrite Hs, Hc, Hdue.
    rewrite run_calls_empty_value by (assumption || reflexivity).
    reflexivity. }
  rewrite run_app, Hfirst. cbn [bearerAuthCalls suspended].
  repeat split.
  - match goal with |- context [run data (grants gs) ?l1] =>
      destruct (run_grants data gs l1 Hnd) as [H _]; [exact Hincl|] end.
    exact H.
  - match goal with |- context [run data (grants gs) ?l1] =>
      destruct (run_grants data gs l1 Hnd) as [_ H]; [exact Hincl|] end.
    exact H.
Qed.

Lemma concurrent_calls_each_refresh_witness :
  let cs := [(1%nat, 0); (2%nat, 1)] in
  let gs := [ {| grantee := 1; settled_at := 40;
                 token := Some "B"; lifetime := Some 3600 |};
              {| grantee := 0; settled_at := 41;
                 token := Some "A"; lifetime := Some 3600 |};
              {| grantee := 2; settled_at := 45;
                 token := Some "C"; lifetime := Some 3600 |} ] in
  bearerAuthCalls (run oauth_config (calls ((0%nat, 0) :: cs))
                       (boot initial_auth))
  = 3%nat
  /\ suspended (run oauth_config (calls ((0%nat, 0) :: cs))
                    (boot initial_auth))
     = [0%nat; 1%nat; 2%nat]
  /\ bearerAuthCalls (run oauth_config (calls ((0%nat, 0) :: cs) ++ grants gs)
                          (boot initial_auth))
     = 3%nat
  /\ answers (run oauth_config (calls ((0%nat, 0) :: cs) ++ grants gs)
                  (boot initial_auth))
     = [(1%nat, Ok (Some "Bearer B")); (0%nat, Ok (Some "Bearer A"));
        (2%nat, Ok (Some "Bearer C"))].
Proof.
  intros cs gs.
  apply (concurrent_calls_each_refresh
           oauth_config initial_auth 0%nat 0 cs gs); try reflexivity.
  - subst gs. cbn [map grantee].
    repeat constructor; cbn; intuition discriminate.
  - subst gs cs. cbn [map grantee fst]. intros c Hc. cbn in Hc |- *.
    intuition.
Defined.

(** ** Further properties of the command line *)

Lemma indexOf_from_first (i : Z) (pre : list string) (key : string)
      (rest : list string) :
  ~ In key pre ->
  indexOf_from i (pre ++ key :: rest) key = i + Z.of_nat (List.length pre).
Proof.
  revert i. induction pre as [|a pre IH]; intros i Hnot.
  - cbn. rewrite String.eqb_refl. lia.
  - cbn [app indexOf_from].
    destruct (String.eqb_spec a key) as [->|_].
    + exfalso. apply Hnot. now left.
    + rewrite IH by (intros Hin; apply Hnot; now right).
      cbn [List.length]. lia.
Qed.

(** X1. When the first occurrence of [key] on the command line is neither
    the first nor the last argument, [commandArgument] returns the argument
    that follows it, whatever default was passed. *)
Theorem commandArgument_reads_value
        (pre : list string) (key v : string) (post : list string)
        (d : option CommandLine.default_value) :
  pre <> [] ->
  ~ In key pre ->
  CommandLine.commandArgument (pre ++ key :: v :: post) key d = Ok v.
Proof.
  intros Hne Hnot. unfold CommandLine.commandArgument, indexOf.
  rewrite (indexOf_from_first 0 pre key (v :: post) Hnot).
  assert (Hlen : (0 < List.length pre)%nat)
    by (destruct pre; [congruence | cbn; lia]).
  rewrite length_app. cbn [List.length].
  destruct (Z.ltb_spec (0 + Z.of_nat (List.length pre)) 1) as [Hlt|_]; [lia|].
  destruct (Z.eqb_spec
              (Z.of_nat (List.length pre + S (S (List.length post))))
              (0 + Z.of_nat (List.length pre) + 1)) as [Heq|_]; [lia|].
  cbn [orb]. f_equal.
  replace (Z.to_nat (0 + Z.of_nat (List.length pre) + 1))
    with (List.length pre + 1)%nat by lia.
  rewrite app_nth2 by lia.
  replace (List.length pre + 1 - List.length pre)%nat with 1%nat by lia.
  reflexivity.
Qed.

Lemma commandArgument_reads_value_witness :
  CommandLine.commandArgument
    (["node"; "src/server/server.mjs"] ++ "--root" :: "/blog" :: ["--x"])
    "--root" (Some (CommandLine.Value "/oce-javascript-blog-sample"))
  = Ok "/blog".
Proof.
  apply (commandArgument_reads_value
           ["node"; "src/server/server.mjs"] "--root" "/blog" ["--x"]).
  - discriminate.
  - simpl. intros [H|[H|[]]]; discriminate H.
Defined.

(** X2. A key whose first occurrence is the last argument, and a key that is
    the very first argument, even when a value follows it, count as missing:
    the outcome is the one for an empty command line (the default, or the
    error when there is none). *)
Theorem commandArgument_key_without_value
        (pre rest : list string) (key : string)
        (d : option CommandLine.default_value) :
  ~ In key pre ->
  CommandLine.commandArgument (pre ++ [key]) key d
  = CommandLine.commandArgument [] key d
  /\ CommandLine.commandArgument (key :: rest) key d
     = CommandLine.commandArgument [] key d.
Proof.
  intros Hnot. split.
  - unfold CommandLine.commandArgument, indexOf.
    rewrite (indexOf_from_first 0 pre key [] Hnot).
    rewrite length_app. cbn [List.length indexOf_from].
    replace (Z.of_nat (List.length pre + 1)
             =? 0 + Z.of_nat (List.length pre) + 1) with true
      by (symmetry; apply Z.eqb_eq; lia).
    rewrite orb_true_r. reflexivity.
  - unfold CommandLine.commandArgument, indexOf.
    cbn [indexOf_from]. rewrite String.eqb_refl. reflexivity.
Qed.

Lemma commandArgument_key_without_value_witness :
  CommandLine.commandArgument (["node"; "server.mjs"] ++ ["--root"])
                              "--root" None
  = CommandLine.commandArgument [] "--root" None
  /\ CommandLine.commandArgument ("--root" :: ["/blog"]) "--root" None
     = CommandLine.commandArgument [] "--root" None.
Proof.
  apply (commandArgument_key_without_value
           ["node"; "server.mjs"] ["/blog"] "--root" None).
  simpl. intros [H|[H|[]]]; discriminate H.
Defined.

Lemma indexOf_from_range (i : Z) (argv : list string) (key : string) :
  indexOf_from i argv key = -1
  \/ i <= indexOf_from i argv key < i + Z.of_nat (List.length argv).
Proof.
  revert i. induction argv as [|a argv IH]; intros i; cbn [indexOf_from].
  - now left.
  - destruct (a =? key)%string.
    + right. cbn [List.length]. lia.
    + destruct (IH (i + 1)) as [H|H]; [now left | right].
      cbn [List.length]. lia.
Qed.

(** X3. The root path the server starts on is never an error: it is the
    default [/oce-javascript-blog-sample] or one of the arguments of the
    command line. *)
Theorem root_is_default_or_argument (argv : list string) :
  exists v, CommandLine.root argv = Ok v
            /\ (v = "/oce-javascript-blog-sample" \/ In v argv).
Proof.
  unfold CommandLine.root, CommandLine.commandArgument, indexOf.
  destruct ((indexOf_from 0 argv "--root" <? 1)
            || (Z.of_nat (List.length argv)
                =? indexOf_from 0 argv "--root" + 1)) eqn:Hc.
  - eexists. split; [reflexivity | now left].
  - eexists. split; [reflexivity | right].
    apply orb_false_iff in Hc. destruct Hc as [H1 H2].
    apply Z.ltb_ge in H1. apply Z.eqb_neq in H2.
    apply nth_In.
    destruct (indexOf_from_range 0 argv "--root") as [H|H]; lia.
Qed.

(** ** Further properties of the upstream URL and transport *)

Lemma oceUrl_of_shape (data : config) (req_url : string) :
  oceUrl_of data req_url
  = without_trailing_slash (serverUrl data)
    ++ "/content" ++ with_leading_slash req_url.
Proof.
  unfold oceUrl_of, without_trailing_slash, with_leading_slash.
  destruct (charAt (serverUrl data) _ =? "/")%string eqn:Hlast;
    destruct (charAt req_url 0 =? "/")%string; cbn [negb].
  - rewrite (trailing_slash_split _ Hlast) at 1.
    rewrite append_assoc. reflexivity.
  - rewrite (trailing_slash_split _ Hlast) at 1.
    rewrite !append_assoc. reflexivity.
  - reflexivity.
  - rewrite !append_assoc. reflexivity.
Qed.

(** X4. When [req.url] does not begin with a slash (it is empty, or begins
    with the query), the handler puts one in: the upstream URL is
    [data.serverUrl], less its trailing slash if it has one, followed by
    [/content/] and [req.url]. *)
Theorem oceUrl_of_inserts_slash (data : config) (req_url : string) :
  (charAt req_url 0 =? "/")%string = false ->
  oceUrl_of data req_url
  = without_trailing_slash (serverUrl data) ++ "/content/" ++ req_url.
Proof.
  intros Hno. rewrite oceUrl_of_shape. unfold with_leading_slash.
  rewrite Hno. reflexivity.
Qed.

Lemma oceUrl_of_inserts_slash_witness :
  oceUrl_of oauth_config "?q=1"
  = without_trailing_slash (serverUrl oauth_config) ++ "/content/" ++ "?q=1".
Proof.
  apply (oceUrl_of_inserts_slash oauth_config "?q=1"). reflexivity.
Defined.

Lemma length_append (a b : string) :
  String.length (a ++ b) = (String.length a + String.length b)%nat.
Proof.
  induction a as [|x a IH]; cbn; [reflexivity | now rewrite IH].
Qed.

Lemma charAt_last_append (b : string) (c : ascii) :
  charAt (b ++ String c "") (Z.of_nat (String.length (b ++ String c "")) - 1)
  = String c "".
Proof.
  induction b as [|x b IH].
  - reflexivity.
  - cbn [append]. rewrite charAt_last_cons; [exact IH|].
    destruct b; discriminate.
Qed.

Lemma substring_all_but_last (b : string) (c : ascii) :
  substring 0 (String.length (b ++ String c "") - 1) (b ++ String c "") = b.
Proof.
  rewrite length_append. cbn [String.length].
  replace (String.length b + 1 - 1)%nat with (String.length b) by lia.
  induction b as [|x b IH]; cbn; [reflexivity | now rewrite IH].
Qed.

(** X5. One trailing slash on [data.serverUrl] makes no difference: for a
    base URL [b] that does not end with a slash, the server URLs [b] and
    [b/] give the same upstream URL for every [req.url]. *)
Theorem trailing_slash_is_absorbed (data : config) (b req_url : string) :
  (charAt b (Z.of_nat (String.length b) - 1) =? "/")%string = false ->
  oceUrl_of (with_serverUrl data (b ++ "/")) req_url
  = oceUrl_of (with_serverUrl data b) req_url.
Proof.
  intros Hb. rewrite !oceUrl_of_shape. cbn [with_serverUrl serverUrl].
  f_equal. unfold without_trailing_slash.
  rewrite Hb, charAt_last_append, String.eqb_refl.
  apply substring_all_but_last.
Qed.

Lemma trailing_slash_is_absorbed_witness :
  oceUrl_of (with_serverUrl oauth_config ("http://localhost:9000" ++ "/"))
            "/published/api/v1.1/items?q=x"
  = oceUrl_of (with_serverUrl oauth_config "http://localhost:9000")
              "/published/api/v1.1/items?q=x".
Proof.
  apply (trailing_slash_is_absorbed oauth_config "http://localhost:9000").
  reflexivity.
Defined.

Lemma append_inv_tail (a b s : string) : a ++ s = b ++ s -> a = b.
Proof.
  revert b. induction a as [|x a IH]; intros [|y b] H; cbn in H.
  - reflexivity.
  - exfalso. apply (f_equal String.length) in H.
    cbn in H. rewrite length_append in H. lia.
  - exfalso. apply (f_equal String.length) in H.
    cbn in H. rewrite length_append in H. lia.
  - injection H as -> H. f_equal. exact (IH b H).
Qed.

Lemma without_trailing_slash_base (b : string) :
  ends_with_slash b = false ->
  without_trailing_slash b = b /\ without_trailing_slash (b ++ "/") = b.
Proof.
  unfold ends_with_slash, without_trailing_slash. intros Hb. split.
  - rewrite Hb. reflexivity.
  - rewrite charAt_last_append, String.eqb_refl.
    apply substring_all_but_last.
Qed.

(** C6, as stated, fails: for a server URL that ends with two slashes the
    handler takes neither away, and two slashes stand before [content]. *)
Lemma one_separator_counterexample :
  ~ one_separator_before_content
      {| serverUrl := "https://example.com/oce//"; auth := None;
         clientId := None; clientSecret := None; clientScopeURL := None;
         idcsURL := None; expressServerPort := None |}
      "/published/api/v1.1/items/123".
Proof.
  intros [b [Hb Heq]].
  change (oceUrl_of _ _)
    with ("https://example.com/oce/"
          ++ ("/content" ++ "/published/api/v1.1/items/123")) in Heq.
  apply append_inv_tail in Heq. subst b. discriminate Hb.
Qed.

(** C6, amended.  For a GET under [/content/], whose [req.url] is the rest
    of the inbound path and query and begins with a slash, and a server URL
    that is a base [b] not ending with a slash, or [b] with one slash after
    it: the upstream URL is [b], one slash, [content] and [req.url]
    unchanged.  The handler makes exactly one upstream request, to that URL,
    unless authorization is needed and the promise of [getAuthValue] rejects,
    when it makes none.  For the server URL [https://example.com/oce], with
    or without its one trailing slash, and the inbound path
    [/content/published/api/v1.1/items/123] the upstream URL is
    [https://example.com/oce/content/published/api/v1.1/items/123]. *)
Theorem upstream_url_one_separator
        (data : config) (b rest : string) (env : handler_env)
        (st : auth_state) :
  ends_with_slash b = false ->
  serverUrl data = b \/ serverUrl data = b ++ "/" ->
  oceUrl_of data ("/" ++ rest) = b ++ "/content" ++ "/" ++ rest
  /\ proxied_urls
       (snd (content_handler data {| method := "GET"; url := "/" ++ rest |}
                             env st))
     = (if isAuthNeeded data
           && is_throw (snd (fst (getAuthValue data (authEnv env) st)))
        then []
        else [b ++ "/content" ++ "/" ++ rest])
  /\ (forall a c cs sc i p,
         oceUrl_of {| serverUrl := "https://example.com/oce"; auth := a;
                      clientId := c; clientSecret := cs; clientScopeURL := sc;
                      idcsURL := i; expressServerPort := p |}
                   "/published/api/v1.1/items/123"
         = "https://example.com/oce/content/published/api/v1.1/items/123")
  /\ (forall a c cs sc i p,
         oceUrl_of {| serverUrl := "https://example.com/oce/"; auth := a;
                      clientId := c; clientSecret := cs; clientScopeURL := sc;
                      idcsURL := i; expressServerPort := p |}
                   "/published/api/v1.1/items/123"
         = "https://example.com/oce/content/published/api/v1.1/items/123").
Proof.
  intros Hb Hserver.
  assert (Hurl : oceUrl_of data ("/" ++ rest)
                 = b ++ "/content" ++ "/" ++ rest).
  { rewrite oceUrl_of_shape.
    destruct (without_trailing_slash_base b Hb) as [H1 H2].
    destruct Hserver as [-> | ->]; [rewrite H1 | rewrite H2]; reflexivity. }
  split; [exact Hurl|]. split; [|split; reflexivity].
  unfold content_handler. cbn [method url].
  change (negb ("GET" =? "GET")%string) with false. cbv iota.
  destruct (isAuthNeeded data); cbn [andb].
  - destruct (getAuthValue data (authEnv env) st) as [[st1 r] called].
    destruct r as [v|e], called;
      cbn [fst snd is_throw app proxied_urls];
      rewrite ?proxied_urls_executeRequest, ?Hurl; reflexivity.
  - cbn [snd]. rewrite proxied_urls_executeRequest, Hurl. reflexivity.
Qed.

Lemma upstream_url_one_separator_witness :
  let rest := "published/api/v1.1/items/123" in
  let env := {| authEnv := {| currentDate := 0; now := 30;
                              tokenFetch := token_granted "A" 3600 |};
                upstream := Some {| statusCode := 200; headers := [] |} |} in
  oceUrl_of oauth_config ("/" ++ rest)
  = "https://example.com/oce/content/published/api/v1.1/items/123"
  /\ proxied_urls
       (snd (content_handler oauth_config
                             {| method := "GET"; url := "/" ++ rest |}
                             env initial_auth))
     = ["https://example.com/oce/content/published/api/v1.1/items/123"].
Proof.
  intros rest env.
  destruct (upstream_url_one_separator
              oauth_config "https://example.com/oce" rest env initial_auth
              eq_refl (or_introl eq_refl)) as (H1 & H2 & _).
  split; [exact H1 | exact H2].
Defined.

Lemma prefix_empty (s : string) : prefix "" s = true.
Proof. now destruct s. Qed.

Lemma prefix_https_oceUrl (data : config) (req_url : string) :
  prefix "https" (oceUrl_of data req_url) = prefix "https" (serverUrl data).
Proof.
  unfold oceUrl_of.
  destruct (serverUrl data) as [|a1 [|a2 [|a3 [|a4 [|a5 s]]]]];
    cbn [prefix append];
    repeat match goal with
           | |- context [ascii_dec ?x ?y] =>
               destruct (ascii_dec x y); [subst|]
           end;
    rewrite ?prefix_empty;
    try reflexivity;
    destruct (charAt req_url 0 =? "/")%string; reflexivity.
Qed.

Lemma proxied_transports_executeRequest
      (u : string) (o : option (option string)) (up : option proxyResponse) :
  proxied_transports (executeRequest u o up)
  = [if prefix "https" u then https else http].
Proof. destruct up; reflexivity. Qed.

(** X6. The transport of the proxied request follows the configured server
    URL alone: it is [https] when [data.serverUrl] begins with the five
    characters [https], and [http] in every other case, whatever [req.url]
    adds. *)
Theorem transport_follows_serverUrl
        (data : config) (req : request) (env : handler_env) (st : auth_state) :
  Forall (fun via => via = if prefix "https" (serverUrl data)
                           then https else http)
         (proxied_transports (snd (content_handler data req env st))).
Proof.
  unfold content_handler.
  destruct (negb (method req =? "GET")%string); [constructor|].
  destruct (isAuthNeeded data).
  - destruct (getAuthValue data (authEnv env) st) as [[st1 r] called].
    destruct r as [v|e], called; cbn [snd app proxied_transports];
      rewrite ?proxied_transports_executeRequest, ?prefix_https_oceUrl;
      repeat constructor.
  - cbn [snd].
    rewrite proxied_transports_executeRequest, prefix_https_oceUrl.
    repeat constructor.
Qed.

(** ** Further properties of the handler *)

(** X7. With neither [data.auth] nor [data.clientId] configured, a GET is
    proxied straight away: one upstream request with empty options (no
    Authorization header), no token request, and the cached credential is
    not touched. *)
Theorem no_auth_passthrough
        (data : config) (req_url : string) (env : handler_env)
        (st : auth_state) :
  isAuthNeeded data = false ->
  content_handler data {| method := "GET"; url := req_url |} env st
  = (st, executeRequest (oceUrl_of data req_url) None (upstream env)).
Proof.
  intros Hno. unfold content_handler. cbn [method url].
  rewrite Hno. reflexivity.
Qed.

Lemma no_auth_passthrough_witness :
  let data := {| serverUrl := "http://localhost:9000"; auth := None;
                 clientId := Some ""; clientSecret := None;
                 clientScopeURL := None; idcsURL := None;
                 expressServerPort := None |} in
  let env := {| authEnv := {| currentDate := 0; now := 0;
                              tokenFetch := FetchRejects |};
                upstream := None |} in
  content_handler data {| method := "GET"; url := "/x" |} env initial_auth
  = (initial_auth, executeRequest (oceUrl_of data "/x") None (upstream env)).
Proof.
  intros data env.
  apply (no_auth_passthrough data "/x" env initial_auth). reflexivity.
Defined.

(** X8. With a static [data.auth] configured, a GET is proxied with exactly
    that value as Authorization header and without any token request; the
    cached value becomes [data.auth] and the cached expiry is left alone. *)
Theorem static_auth_forwarded
        (data : config) (req_url : string) (env : handler_env)
        (st : auth_state) :
  truthy (auth data) = true ->
  content_handler data {| method := "GET"; url := req_url |} env st
  = ({| globalAuthValue := auth data;
        globalAuthExpiry := globalAuthExpiry st |},
     executeRequest (oceUrl_of data req_url) (Some (auth data))
                    (upstream env)).
Proof.
  intros Hs. unfold content_handler, isAuthNeeded, getAuthValue.
  cbn [method url]. rewrite Hs.
  rewrite (getAuthValue_call_static data _ st Hs). reflexivity.
Qed.

Lemma static_auth_forwarded_witness :
  let data := {| serverUrl := "https://example.com/oce";
                 auth := Some "Basic dXNlcjpwYXNz";
                 clientId := None; clientSecret := None;
                 clientScopeURL := None; idcsURL := None;
                 expressServerPort := None |} in
  let env := {| authEnv := {| currentDate := 7; now := 9;
                              tokenFetch := FetchRejects |};
                upstream := Some {| statusCode := 200; headers := [] |} |} in
  content_handler data {| method := "GET"; url := "/x" |} env initial_auth
  = ({| globalAuthValue := auth data;
        globalAuthExpiry := globalAuthExpiry initial_auth |},
     executeRequest (oceUrl_of data "/x") (Some (auth data)) (upstream env)).
Proof.
  intros data env.
  apply (static_auth_forwarded data "/x" env initial_auth). reflexivity.
Defined.

Lemma getAuthValue_ok_truthy
      (data : config) (env : call_env) (st : auth_state) (v : option string) :
  isAuthNeeded data = true ->
  snd (fst (getAuthValue data env st)) = Ok v ->
  truthy v = true.
Proof.
  unfold isAuthNeeded, getAuthValue, getAuthValue_call.
  destruct (truthy (auth data)) eqn:Hs.
  - intros _ Hv. cbn in Hv. injection Hv as <-. exact Hs.
  - destruct (truthy (clientId data)) eqn:Hc; [|discriminate].
    intros _. destruct (refresh_test st (currentDate env)) eqn:Hr.
    + destruct (getBearerAuth (tokenFetch env)) as [d|e] eqn:Hb;
        cbn; [|discriminate].
      intros Hv. injection Hv as <-.
      destruct (tokenFetch env) as [|status [|tok exp]]; try discriminate.
      cbn in Hb. injection Hb as <-. reflexivity.
    + cbn. intros Hv. injection Hv as <-.
      unfold refresh_test in Hr. apply orb_false_iff in Hr.
      destruct Hr as [Hr _]. now apply negb_false_iff in Hr.
Qed.

(** X9. When authorization is needed, no request is ever proxied without a
    non-empty Authorization header: whatever the cached state, the clock and
    the fate of the token request, each proxied request of the handler
    carries one. *)
Theorem proxied_requests_carry_authorization
        (data : config) (req : request) (env : handler_env) (st : auth_state) :
  isAuthNeeded data = true ->
  forallb carries_authorization (snd (content_handler data req env st)) = true.
Proof.
  intros Hneeded. unfold content_handler.
  destruct (negb (method req =? "GET")%string); [reflexivity|].
  rewrite Hneeded.
  pose proof (getAuthValue_ok_truthy data (authEnv env) st) as Hok.
  destruct (getAuthValue data (authEnv env) st) as [[st1 r] called].
  cbn [fst snd] in Hok.
  destruct r as [v|e].
  - specialize (Hok v Hneeded eq_refl).
    destruct v as [h|]; [|discriminate Hok]. cbn [truthy] in Hok.
    destruct called, (upstream env); cbn; rewrite Hok; reflexivity.
  - destruct called; reflexivity.
Qed.

Lemma proxied_requests_carry_authorization_witness :
  let req := {| method := "GET"; url := "/published/api/v1.1/items" |} in
  let env := {| authEnv := {| currentDate := 0; now := 12;
                              tokenFetch :=
                                FetchResponds 401 (JsonBody None None) |};
                upstream := Some {| statusCode := 401; headers := [] |} |} in
  forallb carries_authorization
          (snd (content_handler oauth_config req env initial_auth)) = true.
Proof.
  intros req env.
  apply (proxied_requests_carry_authorization
           oauth_config req env initial_auth). reflexivity.
Defined.

(** ** Further properties of the cached credential *)

Lemma prefix_bearer (s : string) : prefix "Bearer " ("Bearer " ++ s) = true.
Proof. cbn. apply prefix_empty. Qed.

Lemma getBearerAuth_ok_bearer (o : fetch_outcome) (d : authDetails) :
  getBearerAuth o = Ok d -> prefix "Bearer " (authHeaderValue d) = true.
Proof.
  destruct o as [|status [|tok exp]]; try discriminate.
  intros H. injection H as <-. apply prefix_bearer.
Qed.

Lemma turn_keeps_bearer (data : config) (l : loop) (e : event) :
  truthy (auth data) = false ->
  truthy (clientId data) = true ->
  bearer_or_empty (store l) ->
  Forall bearer_answer (answers l) ->
  bearer_or_empty (store (turn data l e))
  /\ Forall bearer_answer (answers (turn data l e)).
Proof.
  intros Hs Hc Hinv Hans. destruct e as [c clock|c clock o]; cbn [turn].
  - unfold getAuthValue_call. rewrite Hs, Hc.
    destruct (refresh_test (store l) clock) eqn:Hr; cbn [store answers].
    + split; [now left | exact Hans].
    + split; [exact Hinv|].
      apply Forall_app. split; [exact Hans|].
      constructor; [|constructor].
      unfold refresh_test in Hr. apply orb_false_iff in Hr.
      destruct Hr as [Hr _]. apply negb_false_iff in Hr.
      destruct Hinv as [He|(h & d & Hv & Hp & _)].
      * rewrite He in Hr. discriminate Hr.
      * unfold bearer_answer. cbn [snd]. rewrite Hv. exact Hp.
  - destruct (existsb (Nat.eqb c) (suspended l)); [|now split].
    destruct (getBearerAuth o) as [d|err] eqn:Hb; cbn [getAuthValue_resume].
    + cbn [store answers]. split.
      * right. exists (authHeaderValue d), (new_Date (plus clock (expiry d))).
        cbn. repeat split. exact (getBearerAuth_ok_bearer o d Hb).
      * apply Forall_app. split; [exact Hans|].
        constructor; [|constructor].
        exact (getBearerAuth_ok_bearer o d Hb).
    + cbn [store answers]. split; [exact Hinv|].
      apply Forall_app. split; [exact Hans|].
      constructor; [exact I | constructor].
Qed.

(** X10. Under client credentials the cache keeps its shape through any
    sequence of calls and settled token requests, started from the initial
    state: the cached value is the empty string or a header that begins with
    [Bearer ] and has an expiry beside it, never [null]; and no caller ever
    receives anything but a rejection or such a header. *)
Theorem oauth_cache_invariant (data : config) (es : list event) :
  truthy (auth data) = false ->
  truthy (clientId data) = true ->
  bearer_or_empty (store (run data es (boot initial_auth)))
  /\ Forall bearer_answer (answers (run data es (boot initial_auth))).
Proof.
  intros Hs Hc.
  assert (Hgen : forall l,
             bearer_or_empty (store l) ->
             Forall bearer_answer (answers l) ->
             bearer_or_empty (store (run data es l))
             /\ Forall bearer_answer (answers (run data es l))).
  { induction es as [|e es IH]; intros l Hinv Hans; [now split|].
    unfold run. cbn [fold_left]. fold (run data es (turn data l e)).
    destruct (turn_keeps_bearer data l e Hs Hc Hinv Hans) as [H1 H2].
    exact (IH _ H1 H2). }
  apply Hgen; [now left | constructor].
Qed.

Lemma oauth_cache_invariant_witness :
  let es := [Call 0 0; Call 1 1; Settle 1 40 (token_granted "B" 3600);
             Settle 0 41 FetchRejects; Call 2 50;
             Settle 2 60 (FetchResponds 500 (JsonBody None None))] in
  bearer_or_empty (store (run oauth_config es (boot initial_auth)))
  /\ Forall bearer_answer (answers (run oauth_config es (boot initial_auth))).
Proof.
  intros es. apply (oauth_cache_invariant oauth_config es); reflexivity.
Defined.

Lemma run_no_refresh (data : config) (es : list event) (l : loop) :
  truthy (auth data) = false ->
  truthy (clientId data) = true ->
  suspended l = [] ->
  no_refresh_at (store l) es ->
  run data es l
  = {| store := store l;
       suspended := [];
       bearerAuthCalls := bearerAuthCalls l;
       answers := answers l
                  ++ map (fun c => (c, Ok (globalAuthValue (store l))))
                         (callers_of es) |}.
Proof.
  intros Hs Hc. revert l.
  induction es as [|e es IH]; intros l Hsusp Hno.
  - cbn. rewrite app_nil_r. destruct l; cbn in *. now subst.
  - unfold run. cbn [fold_left]. fold (run data es (turn data l e)).
    inversion Hno as [|? ? He Hes]; subst.
    destruct e as [c clock|c clock o].
    + assert (Hturn : turn data l (Call c clock)
                      = {| store := store l;
                           suspended := suspended l;
                           bearerAuthCalls := bearerAuthCalls l;
                           answers := answers l
                                      ++ [(c, Ok (globalAuthValue
                                                    (store l)))] |}).
      { cbn [turn]. unfold getAuthValue_call. rewrite Hs, Hc, He.
        reflexivity. }
      rewrite Hturn, IH by assumption.
      cbn [store answers bearerAuthCalls callers_of map].
      rewrite <- app_assoc. reflexivity.
    + assert (Hturn : turn data l (Settle c clock o) = l)
        by (cbn [turn]; now rewrite Hsusp).
      rewrite Hturn. exact (IH l Hsusp Hes).
Qed.




(** X12. Under client credentials the cache answers a call by itself only
    with a token that, by its stored expiry, is within five seconds of
    expiring or already expired (or whose expiry is an Invalid Date): when a
    call returns without calling [getBearerAuth], the cached credential is
    such a token, it is what the call returns, and the cache is unchanged. *)
Theorem cache_answers_only_when_past_refresh
        (data : config) (env : call_env) (st : auth_state) :
  truthy (auth data) = false ->
  truthy (clientId data) = true ->
  snd (getAuthValue data env st) = false ->
  past_refresh st (currentDate env) = true
  /\ getAuthValue data env st = (st, Ok (globalAuthValue st), false).
Proof.
  intros Hs Hc. unfold getAuthValue, getAuthValue_call. rewrite Hs, Hc.
  destruct (refresh_test st (currentDate env)) eqn:Hr.
  - destruct (getAuthValue_resume _ _ _). discriminate.
  - intros _. split; [|reflexivity].
    unfold refresh_test in Hr. apply orb_false_iff in Hr.
    destruct Hr as [Hv Hx]. apply negb_false_iff in Hv.
    unfold past_refresh. rewrite Hv. cbn [andb].
    destruct (globalAuthExpiry st) as [[ms|]|];
      [| reflexivity | discriminate Hx].
    cbn [getTime minus gt] in Hx.
    rewrite Z.gtb_ltb in Hx. apply Z.ltb_ge in Hx.
    apply Z.leb_le. exact Hx.
Qed.

Lemma cache_answers_only_when_past_refresh_witness :
  let env := {| currentDate := 3596000; now := 3596010;
                tokenFetch := token_granted "B" 3600 |} in
  let st := {| globalAuthValue := Some "Bearer A";
               globalAuthExpiry := Some (ValidDate 3600000) |} in
  past_refresh st (currentDate env) = true
  /\ getAuthValue oauth_config env st = (st, Ok (globalAuthValue st), false).
Proof.
  intros env st.
  apply (cache_answers_only_when_past_refresh oauth_config env st);
    reflexivity.
Defined.

Lemma no_refresh_invalid_date (st : auth_state) (es : list event) :
  truthy (globalAuthValue st) = true ->
  globalAuthExpiry st = Some InvalidDate ->
  no_refresh_at st es.
Proof.
  intros Hv Hx. unfold no_refresh_at. apply Forall_forall.
  intros [c clock|c clock o] _; [|exact I].
  unfold refresh_test. rewrite Hv, Hx. reflexivity.
Qed.

(** X13. A token response without [expires_in] is cached for good.  Under
    client credentials, when the only token request in flight settles with a
    JSON object that has no [expires_in] (the error body of a 401 is one),
    the header made from it, [Bearer undefined] when [access_token] is
    missing too, is stored with an Invalid Date as expiry, and from then on
    every call, at any clock, is answered with it without any further call
    of [getBearerAuth]. *)
Theorem token_without_expiry_is_kept
        (data : config) (l : loop) (c : nat) (t' status : Z)
        (tok : option string) (es : list event) :
  truthy (auth data) = false ->
  truthy (clientId data) = true ->
  suspended l = [c] ->
  let header := Some ("Bearer " ++ interpolate tok) in
  run data (Settle c t' (FetchResponds status (JsonBody tok None)) :: es) l
  = {| store := {| globalAuthValue := header;
                   globalAuthExpiry := Some InvalidDate |};
       suspended := [];
       bearerAuthCalls := bearerAuthCalls l;
       answers := answers l
                  ++ (c, Ok header)
                     :: map (fun c' => (c', Ok header)) (callers_of es) |}.
Proof.
  intros Hs Hc Honly header. unfold run. cbn [fold_left].
  match goal with |- fold_left _ es ?l1 = _ =>
    fold (run data es l1);
    assert (Hl : l1 = {| store := {| globalAuthValue := header;
                                     globalAuthExpiry := Some InvalidDate |};
                         suspended := [];
                         bearerAuthCalls := bearerAuthCalls l;
                         answers := answers l ++ [(c, Ok header)] |})
  end.
  { cbn [turn]. rewrite Honly. cbn [existsb remove_first].
    rewrite Nat.eqb_refl. reflexivity. }
  rewrite Hl. rewrite run_no_refresh; try assumption; try reflexivity.
  - cbn [store answers bearerAuthCalls globalAuthValue].
    rewrite <- app_assoc. reflexivity.
  - apply no_refresh_invalid_date; reflexivity.
Qed.

Lemma token_without_expiry_is_kept_witness :
  let l := run oauth_config [Call 0 0] (boot initial_auth) in
  let es := [Call 1 1000; Call 2 999999999999;
             Settle 2 5 (token_granted "B" 3600)] in
  let header := Some ("Bearer " ++ interpolate None) in
  run oauth_config
      (Settle 0 20 (FetchResponds 401 (JsonBody None None)) :: es) l
  = {| store := {| globalAuthValue := header;
                   globalAuthExpiry := Some InvalidDate |};
       suspended := [];
       bearerAuthCalls := bearerAuthCalls l;
       answers := answers l
                  ++ (0%nat, Ok header)
                     :: map (fun c' => (c', Ok header)) (callers_of es) |}.
Proof.
  intros l es.
  apply (token_without_expiry_is_kept
           oauth_config l 0%nat 20 401 None es); reflexivity.
Defined.

(** X14. A failed refresh is tried again by the next call.  Under client
    credentials and with no other token request in flight, when a call goes
    to the provider and its token request fails, the caller gets the error
    and the next call of [getAuthValue] calls [getBearerAuth] again, whatever
    the clock reads; when that request is answered with a JSON object, the
    call returns the header made from it, which is then the cached value. *)
Theorem failed_refresh_is_retried
        (data : config) (l : loop) (c c' : nat) (t1 t2 t3 t4 status : Z)
        (o : fetch_outcome) (e : js_error)
        (tok : option string) (exp : option Z) :
  truthy (auth data) = false ->
  truthy (clientId data) = true ->
  suspended l = [] ->
  refresh_test (store l) t1 = true ->
  getBearerAuth o = Throw e ->
  let header := Some ("Bearer " ++ interpolate tok) in
  run data [Call c t1; Settle c t2 o; Call c' t3;
            Settle c' t4 (FetchResponds status (JsonBody tok exp))] l
  = {| store := {| globalAuthValue := header;
                   globalAuthExpiry := Some (new_Date (plus t4 exp)) |};
       suspended := [];
       bearerAuthCalls := S (S (bearerAuthCalls l));
       answers := answers l ++ [(c, Throw e); (c', Ok header)] |}.
Proof.
  intros Hs Hc Hnone Hdue Hfail header.
  set (cleared := {| globalAuthValue := Some "";
                     globalAuthExpiry := globalAuthExpiry (store l) |}).
  assert (H1 : turn data l (Call c t1)
               = {| store := cleared; suspended := [c];
                    bearerAuthCalls := S (bearerAuthCalls l);
                    answers := answers l |}).
  { cbn [turn]. unfold getAuthValue_call. rewrite Hs, Hc, Hdue, Hnone.
    reflexivity. }
  assert (H2 : forall l1,
             suspended l1 = [c] ->
             turn data l1 (Settle c t2 o)
             = {| store := store l1; suspended := [];
                  bearerAuthCalls := bearerAuthCalls l1;
                  answers := answers l1 ++ [(c, Throw e)] |}).
  { intros l1 Hl1. cbn [turn]. rewrite Hl1. cbn [existsb remove_first].
    rewrite Nat.eqb_refl, Hfail. reflexivity. }
  assert (H3 : forall l2,
             store l2 = cleared -> suspended l2 = [] ->
             turn data l2 (Call c' t3)
             = {| store := cleared; suspended := [c'];
                  bearerAuthCalls := S (bearerAuthCalls l2);
                  answers := answers l2 |}).
  { intros l2 Hst Hsu. cbn [turn]. unfold getAuthValue_call.
    rewrite Hs, Hc, Hst, Hsu. reflexivity. }
  assert (H4 : forall l3,
             suspended l3 = [c'] ->
             turn data l3 (Settle c' t4
                                  (FetchResponds status (JsonBody tok exp)))
             = {| store := {| globalAuthValue := header;
                              globalAuthExpiry :=
                                Some (new_Date (plus t4 exp)) |};
                  suspended := [];
                  bearerAuthCalls := bearerAuthCalls l3;
                  answers := answers l3 ++ [(c', Ok header)] |}).
  { intros l3 Hl3. cbn [turn]. rewrite Hl3. cbn [existsb remove_first].
    rewrite Nat.eqb_refl. reflexivity. }
  unfold run. cbn [fold_left].
  rewrite H1, H2, H3, H4 by reflexivity.
  cbn [bearerAuthCalls answers]. rewrite <- app_assoc. reflexivity.
Qed.

Lemma failed_refresh_is_retried_witness :
  let l := boot {| globalAuthValue := Some "Bearer A";
                   globalAuthExpiry := Some (ValidDate 100000) |} in
  let header := Some ("Bearer " ++ interpolate (Some "B")) in
  run oauth_config
      [Call 0 1; Settle 0 30 FetchRejects; Call 1 99999999;
       Settle 1 99999999 (FetchResponds 200 (JsonBody (Some "B") (Some 3600)))]
      l
  = {| store := {| globalAuthValue := header;
                   globalAuthExpiry :=
                     Some (new_Date (plus 99999999 (Some 3600))) |};
       suspended := [];
       bearerAuthCalls := S (S (bearerAuthCalls l));
       answers := answers l
                  ++ [(0%nat, Throw FetchError); (1%nat, Ok header)] |}.
Proof.
  intros l.
  apply (failed_refresh_is_retried
           oauth_config l 0%nat 1%nat 1 30 99999999 99999999 200
           FetchRejects FetchError (Some "B") (Some 3600)); reflexivity.
Defined.

Lemma turn_grant (data : config) (l : loop) (g : grant) :
  In (grantee g) (suspended l) ->
  turn data l (Settle (grantee g) (settled_at g)
                      (FetchResponds 200 (JsonBody (token g) (lifetime g))))
  = {| store := {| globalAuthValue :=
                     Some ("Bearer " ++ interpolate (token g));
                   globalAuthExpiry :=
                     Some (new_Date (plus (settled_at g) (lifetime g))) |};
       suspended := remove_first (grantee g) (suspended l);
       bearerAuthCalls := bearerAuthCalls l;
       answers := answers l ++ [own_answer g] |}.
Proof.
  intros Hin. cbn [turn]. rewrite (existsb_eqb_in _ _ Hin). reflexivity.
Qed.

Lemma run_grants_pending (data : config) (gs : list grant) (l : loop)
      (c : nat) :
  NoDup (map grantee gs) ->
  incl (map grantee gs) (suspended l) ->
  In c (suspended l) ->
  ~ In c (map grantee gs) ->
  In c (suspended (run data (grants gs) l)).
Proof.
  revert l. induction gs as [|g gs IH]; intros l Hnd Hincl Hc Hnot.
  - exact Hc.
  - cbn [grants map]. unfold run. cbn [fold_left]. fold (grants gs).
    match goal with |- context [fold_left _ (grants gs) ?l1] =>
      fold (run data (grants gs) l1) end.
    cbn [map] in Hnd, Hincl, Hnot.
    inversion Hnd as [|? ? Hfresh Hnd']; subst.
    rewrite turn_grant by (apply Hincl; now left).
    apply IH; cbn [suspended].
    + exact Hnd'.
    + intros c' Hc'. apply in_remove_first.
      * intros ->. exact (Hfresh Hc').
      * apply Hincl. now right.
    + apply in_remove_first; [|exact Hc].
      intros ->. apply Hnot. now left.
    + intros Hin. apply Hnot. now right.
Qed.

Lemma run_first_calls (data : config) (st : auth_state) (c0 : nat) (t0 : Z)
      (cs : list (nat * Z)) :
  truthy (auth data) = false ->
  truthy (clientId data) = true ->
  refresh_test st t0 = true ->
  run data (calls ((c0, t0) :: cs)) (boot st)
  = {| store := {| globalAuthValue := Some "";
                   globalAuthExpiry := globalAuthExpiry st |};
       suspended := c0 :: map fst cs;
       bearerAuthCalls := S (List.length cs);
       answers := [] |}.
Proof.
  intros Hs Hc Hdue. cbn [calls map]. unfold run. cbn [fold_left fst snd].
  fold (calls cs).
  match goal with |- fold_left _ _ ?l1 = _ =>
    fold (run data (calls cs) l1) end.
  cbn [turn boot store]. unfold getAuthValue_call.
  rewrite Hs, Hc, Hdue.
  rewrite run_calls_empty_value by (assumption || reflexivity).
  reflexivity.
Qed.

(** X15. After calls made together, the cache ends with the token of the
    request that settled last, not with the one of the last caller.  Under
    client credentials, when callers call [getAuthValue] before any token
    request has settled and the requests then settle with tokens in some
    order, the cached value and expiry are those of the last request to
    settle: its header, and its settling clock plus its [expires_in]. *)
Theorem last_settled_wins
        (data : config) (st : auth_state) (c0 : nat) (t0 : Z)
        (cs : list (nat * Z)) (gs : list grant) (g : grant) :
  truthy (auth data) = false ->
  truthy (clientId data) = true ->
  refresh_test st t0 = true ->
  NoDup (map grantee (gs ++ [g])) ->
  incl (map grantee (gs ++ [g])) (c0 :: map fst cs) ->
  store (run data (calls ((c0, t0) :: cs) ++ grants (gs ++ [g])) (boot st))
  = {| globalAuthValue := Some ("Bearer " ++ interpolate (token g));
       globalAuthExpiry :=
         Some (new_Date (plus (settled_at g) (lifetime g))) |}.
Proof.
  intros Hs Hc Hdue Hnd Hincl.
  rewrite run_app, (run_first_calls data st c0 t0 cs Hs Hc Hdue).
  unfold grants. rewrite map_app. fold (grants gs). rewrite run_app.
  rewrite map_app in Hnd, Hincl. cbn [map] in Hnd, Hincl.
  apply NoDup_remove in Hnd. rewrite app_nil_r in Hnd.
  destruct Hnd as [Hnd Hfresh].
  cbn [map]. unfold run at 1. cbn [fold_left].
  rewrite turn_grant; [reflexivity|].
  apply run_grants_pending; cbn [suspended].
  - exact Hnd.
  - intros c Hin. apply Hincl. apply in_or_app. now left.
  - apply Hincl. apply in_or_app. right. now left.
  - exact Hfresh.
Qed.

Lemma last_settled_wins_witness :
  let gs := [ {| grantee := 1; settled_at := 40;
                 token := Some "B"; lifetime := Some 3600 |} ] in
  let g := {| grantee := 0; settled_at := 41;
              token := Some "A"; lifetime := Some 7200 |} in
  store (run oauth_config (calls ((0%nat, 0) :: [(1%nat, 1)])
                           ++ grants (gs ++ [g]))
             (boot initial_auth))
  = {| globalAuthValue := Some ("Bearer " ++ interpolate (token g));
       globalAuthExpiry :=
         Some (new_Date (plus (settled_at g) (lifetime g))) |}.
Proof.
  intros gs g.
  apply (last_settled_wins oauth_config initial_auth 0%nat 0
                           [(1%nat, 1)] gs g); try reflexivity.
  - subst gs g. cbn [map grantee app].
    repeat constructor; cbn; intuition discriminate.
  - subst gs g. cbn [map grantee fst app]. intros c Hc. cbn in Hc |- *.
    intuition.
Defined.

(** ** The browser side *)

(** X16. The browser and the server agree on the proxy.  The client made by
    [getClient] addresses the Express server exactly when the server's
    [isAuthNeeded] holds, and then on the very port the server listens on
    (8080 when [expressServerPort] is absent or 0); otherwise it addresses
    [serverUrl] directly. *)
Theorem client_targets_listening_port
        (protocol hostname : string)
        (jsonContents : ServerConfigUtils.content_json) :
  ServerConfigUtils.contentServer
    (ServerConfigUtils.config_of
       (ServerConfigUtils.getClient_loaded protocol hostname jsonContents))
  = if isAuthNeeded (ServerConfigUtils.proxied jsonContents)
    then protocol ++ "//" ++ hostname ++ ":"
         ++ ServerConfigUtils.decimal
              (port (ServerConfigUtils.proxied jsonContents))
    else serverUrl (ServerConfigUtils.proxied jsonContents).
Proof.
  unfold ServerConfigUtils.getClient_loaded, isAuthNeeded, port.
  destruct (ServerConfigUtils.preview jsonContents) as [[|]|];
    cbn [ServerConfigUtils.config_of ServerConfigUtils.contentServer];
    destruct (truthy (auth (ServerConfigUtils.proxied jsonContents))
              || truthy (clientId (ServerConfigUtils.proxied jsonContents)));
    reflexivity.
Qed.

Import Services.

Lemma logError_object_line (message : string) (error : thrown) :
  error <> Nothing -> exists line, logError message error = Normal [line].
Proof.
  intros Hsome.
  destruct error as [| |statusMessage [code|]]; cbn [logError].
  - congruence.
  - eexists. reflexivity.
  - destruct (truthy statusMessage); [eexists; reflexivity|].
    destruct (truthy code); cbn [andb];
      [destruct (interpolate code =? "ETIMEDOUT")%string|];
      eexists; reflexivity.
  - destruct (truthy statusMessage); eexists; reflexivity.
Qed.

(** X17. [logError] writes exactly one line to the console for an error that
    is an object, and throws a [TypeError] itself, writing nothing, when the
    error is [undefined] or [null]: its last test, [else if (error)], never
    fails when it is reached. *)
Theorem logError_one_line_or_TypeError (message : string) (error : thrown) :
  match error with
  | Nothing => logError message error = Abrupt TypeError
  | _ => exists line, logError message error = Normal [line]
  end.
Proof.
  destruct error as [| |statusMessage err] eqn:He.
  - reflexivity.
  - apply logError_object_line. discriminate.
  - apply logError_object_line. discriminate.
Qed.

Lemma catch_logError_failure (A : Type) (message : string) (t : thrown) :
  t <> Nothing ->
  exists line,
    catch_logError (A:=A) message (Abrupt t) = ([line], Normal None).
Proof.
  intros Hsome. unfold catch_logError.
  destruct (logError_object_line message t Hsome) as [line ->].
  exists line. reflexivity.
Qed.

(** X18. The fetch functions swallow the failures of the client: when its
    call rejects with an object (an error object of the client, with or
    without [statusMessage] and [error.code], or a [TypeError]), the promise
    returned by [fetchHomePage], [fetchTopic], [fetchArticles],
    [fetchArticle] and [getMediumRenditionURL] does not reject; it resolves
    to [undefined] after one line on the console. *)
Theorem client_failure_resolves_undefined (Item : Type) (t : thrown) :
  t <> Nothing ->
  (exists line, fetchHomePage (Abrupt t) = ([line], Normal None))
  /\ (exists line, fetchTopic (Item:=Item) (Abrupt t) = ([line], Normal None))
  /\ (exists line,
         fetchArticles (Item:=Item) (Abrupt t) = ([line], Normal None))
  /\ (exists line,
         fetchArticle (Item:=Item) (Abrupt t) = ([line], Normal None))
  /\ (exists line, getMediumRenditionURL (Abrupt t) = ([line], Normal None)).
Proof.
  intros Hsome.
  unfold fetchHomePage, fetchTopic, fetchArticles, fetchArticle,
    getMediumRenditionURL.
  cbn [and_then].
  repeat split; apply catch_logError_failure; exact Hsome.
Qed.

Lemma client_failure_resolves_undefined_witness :
  let t := ErrorObject (Some "Not Found") None in
  (exists line, fetchHomePage (Abrupt t) = ([line], Normal None))
  /\ (exists line, fetchTopic (Item:=string) (Abrupt t) = ([line], Normal None))
  /\ (exists line,
         fetchArticles (Item:=string) (Abrupt t) = ([line], Normal None))
  /\ (exists line,
         fetchArticle (Item:=string) (Abrupt t) = ([line], Normal None))
  /\ (exists line, getMediumRenditionURL (Abrupt t) = ([line], Normal None)).
Proof.
  intros t.
  apply (client_failure_resolves_undefined string t). discriminate.
Defined.

(** X19. [fetchHomePage] reads the first item of the query and nothing
    else.  With a first item that has a logo it resolves, without a line on
    the console, to the five values of that item, whatever items follow; for
    a query without items, and for a first item without logo, it logs a
    [TypeError] with [console.error] and resolves to [undefined]. *)
Theorem fetchHomePage_reads_first_item :
  (forall first rest,
      fetchHomePage (Normal (first :: rest))
      = match company_logo first with
        | Some id =>
            ([], Normal (Some {| logoID := id;
                                 title := company_name first;
                                 home_topics := topics first;
                                 aboutUrl := about_url first;
                                 contactUrl := contact_url first |}))
        | None =>
            ([console_error "Fetching home page data failed"
                            (LoggedValue TypeError)], Normal None)
        end)
  /\ fetchHomePage (Normal [])
     = ([console_error "Fetching home page data failed"
                       (LoggedValue TypeError)], Normal None).
Proof.
  split; [|reflexivity].
  intros first rest. unfold fetchHomePage. cbn [and_then home_page_of].
  destruct (company_logo first); reflexivity.
Qed.

Lemma first_match_app {A : Type} (test : A -> bool) (l1 l2 : list A) (a : A) :
  forallb (fun x => negb (test x)) l1 = true ->
  test a = true ->
  first_match test (l1 ++ a :: l2) = Some a.
Proof.
  intros Hnone Ha. unfold first_match.
  induction l1 as [|x l1 IH]; cbn [app filter].
  - rewrite Ha. reflexivity.
  - cbn [forallb] in Hnone. apply andb_true_iff in Hnone.
    destruct Hnone as [Hx Hrest]. apply negb_true_iff in Hx.
    rewrite Hx. exact (IH Hrest).
Qed.

Lemma first_match_none {A : Type} (test : A -> bool) (l : list A) :
  forallb (fun x => negb (test x)) l = true ->
  first_match test l = None.
Proof.
  intros Hnone. unfold first_match.
  induction l as [|x l IH]; cbn [filter]; [reflexivity|].
  cbn [forallb] in Hnone. apply andb_true_iff in Hnone.
  destruct Hnone as [Hx Hrest]. apply negb_true_iff in Hx.
  rewrite Hx. exact (IH Hrest).
Qed.

(** X20. [getMediumRenditionURL] resolves to the [href] of the first link
    with [rel] "self" of the first format "jpg" of the first rendition named
    "Medium", without a line on the console, whatever comes after each of
    the three. *)
Theorem getMediumRenditionURL_first_matches
        (rs1 rs2 : list rendition) (r : rendition)
        (fs1 fs2 : list rendition_format) (f : rendition_format)
        (ls1 ls2 : list link) (self : link) :
  forallb (fun x => negb (name x =? "Medium")%string) rs1 = true ->
  (name r =? "Medium")%string = true ->
  formats r = (fs1 ++ f :: fs2)%list ->
  forallb (fun x => negb (format x =? "jpg")%string) fs1 = true ->
  (format f =? "jpg")%string = true ->
  links f = (ls1 ++ self :: ls2)%list ->
  forallb (fun x => negb (rel x =? "self")%string) ls1 = true ->
  (rel self =? "self")%string = true ->
  getMediumRenditionURL (Normal (rs1 ++ r :: rs2)%list)
  = ([], Normal (Some (href self))).
Proof.
  intros Hrs Hr Hformats Hfs Hf Hlinks Hls Hself.
  unfold getMediumRenditionURL. cbn [and_then]. unfold medium_url_of.
  rewrite (first_match_app _ rs1 rs2 r Hrs Hr).
  rewrite Hformats, (first_match_app _ fs1 fs2 f Hfs Hf).
  rewrite Hlinks, (first_match_app _ ls1 ls2 self Hls Hself).
  reflexivity.
Qed.

Lemma getMediumRenditionURL_first_matches_witness :
  let self := {| rel := "self"; href := Some "https://example.com/m.jpg" |} in
  let other := {| rel := "canonical"; href := Some "https://example.com/c" |} in
  let jpg := {| format := "jpg"; links := [other; self] |} in
  let webp := {| format := "webp"; links := [self] |} in
  let medium := {| name := "Medium"; formats := [webp; jpg] |} in
  let thumb := {| name := "Thumbnail"; formats := [jpg] |} in
  getMediumRenditionURL (Normal ([thumb] ++ medium :: [thumb])%list)
  = ([], Normal (Some (href self))).
Proof.
  intros self other jpg webp medium thumb.
  apply (getMediumRenditionURL_first_matches
           [thumb] [thumb] medium [webp] [] jpg [other] [] self);
    reflexivity.
Defined.

(** X21. [getMediumRenditionURL] does not look past the first rendition
    named "Medium": when that one has no format "jpg", the function logs a
    [TypeError] with [console.error] and resolves to [undefined], even if a
    later rendition named "Medium" has one. *)
Theorem getMediumRenditionURL_does_not_look_further
        (rs1 rs2 : list rendition) (r : rendition) :
  forallb (fun x => negb (name x =? "Medium")%string) rs1 = true ->
  (name r =? "Medium")%string = true ->
  forallb (fun x => negb (format x =? "jpg")%string) (formats r) = true ->
  getMediumRenditionURL (Normal (rs1 ++ r :: rs2)%list)
  = ([console_error "Fetching medium rendition URL failed"
                    (LoggedValue TypeError)], Normal None).
Proof.
  intros Hrs Hr Hfs.
  unfold getMediumRenditionURL. cbn [and_then]. unfold medium_url_of.
  rewrite (first_match_app _ rs1 rs2 r Hrs Hr).
  rewrite (first_match_none _ (formats r) Hfs).
  reflexivity.
Qed.

Lemma getMediumRenditionURL_does_not_look_further_witness :
  let self := {| rel := "self"; href := Some "https://example.com/m.jpg" |} in
  let jpg := {| format := "jpg"; links := [self] |} in
  let png := {| format := "png"; links := [self] |} in
  let medium_png := {| name := "Medium"; formats := [png] |} in
  let medium_jpg := {| name := "Medium"; formats := [jpg] |} in
  getMediumRenditionURL (Normal ([] ++ medium_png :: [medium_jpg])%list)
  = ([console_error "Fetching medium rendition URL failed"
                    (LoggedValue TypeError)], Normal None).
Proof.
  intros self jpg png medium_png medium_jpg.
  apply (getMediumRenditionURL_does_not_look_further
           [] [medium_jpg] medium_png); reflexivity.
Defined.
